(** * mkSkills: the batch LLM runner and the kanban dependency planner

    A shallow embedding of
      - [kanban-planner.js]: [parseDependencies], [buildDependencyGraph],
        [topologicalSort], [generatePlan];
      - [batch-llm-runner.js]: [runCodeagent], [runWithConcurrency] and
        [BatchRunner] ([loadProgress], [saveProgress], [clearProgress], [run]);
      - [shared.js]: [readJsonSafe], [writeJsonSafe], [unlinkSafe];
    followed by the properties of the specification that concern them. *)

From Stdlib Require Import List String Ascii Bool Arith ZArith NArith Lia.
From Stdlib Require Import Sorted Permutation Relations ListDec DecimalString.
From Equations Require Import Equations.
From Equations.Prop Require Import Logic.
Import ListNotations.

Local Open Scope string_scope.
Local Open Scope list_scope.

(* ===================================================================== *)
(** * JavaScript strings and the regular expressions of the sources      *)
(* ===================================================================== *)

(** A string is a sequence of code units; the model keeps the code units
    below 256 (ASCII and Latin-1), one [ascii] each. *)
Module JsString.

Definition code (c : ascii) : N := N_of_ascii c.

(** [\s], and the characters [String.prototype.trim] removes, among the
    code units below 256: TAB, LF, VT, FF, CR, SPACE and NBSP. *)
Definition isSpace (c : ascii) : bool :=
  (((9 <=? code c) && (code c <=? 13)) || (code c =? 32) || (code c =? 160))%N.

Definition isDigit (c : ascii) : bool := ((48 <=? code c) && (code c <=? 57))%N.
Definition isUpper (c : ascii) : bool := ((65 <=? code c) && (code c <=? 90))%N.
Definition isLower (c : ascii) : bool := ((97 <=? code c) && (code c <=? 122))%N.

(** [[a-zA-Z0-9]] *)
Definition isAlnum (c : ascii) : bool := isDigit c || isUpper c || isLower c.

(** [[:\s]] *)
Definition isColonOrSpace (c : ascii) : bool := (code c =? 58)%N || isSpace c.

(** [[a-f0-9-]] under the [i] flag. *)
Definition isHexDash (c : ascii) : bool :=
  (isDigit c || ((97 <=? code c) && (code c <=? 102))
   || ((65 <=? code c) && (code c <=? 70)) || (code c =? 45))%N.

Definition toLower (c : ascii) : ascii :=
  if isUpper c then ascii_of_N (code c + 32) else c.

(** Equality of two code units under the [i] flag: only ASCII letters fold. *)
Definition ciEq (a b : ascii) : bool := Ascii.eqb (toLower a) (toLower b).

(** The pieces the regular expressions of the sources are made of. *)
Inductive Atom : Type :=
| Lit (s : string)                 (* literal text, case-insensitive *)
| Plus (cls : ascii -> bool)       (* [cls+] *)
| Star (cls : ascii -> bool)       (* [cls*] *)
| Capture (cls : ascii -> bool).   (* [(cls+)], the capture group *)

Definition Regex : Type := list Atom.

Fixpoint matchLiteral (lit s : string) : option string :=
  match lit with
  | EmptyString => Some s
  | String a lit' =>
      match s with
      | String b s' => if ciEq a b then matchLiteral lit' s' else None
      | EmptyString => None
      end
  end.

(** The longest run of characters of a class, and what follows it. *)
Fixpoint takeWhile (cls : ascii -> bool) (s : string) : string * string :=
  match s with
  | String c s' =>
      if cls c then let (run, rest) := takeWhile cls s' in (String c run, rest)
      else (EmptyString, s)
  | EmptyString => (EmptyString, EmptyString)
  end.

(** Match a regex at the start of [s]. In every regex of the sources a
    repeated class is followed by a literal whose first character lies
    outside the class, so the greedy run is the only candidate and no
    backtracking takes place. *)
Fixpoint matchHere (re : Regex) (cap : option string) (s : string)
  : option (option string * string) :=
  match re with
  | [] => Some (cap, s)
  | Lit l :: re' =>
      match matchLiteral l s with
      | Some rest => matchHere re' cap rest
      | None => None
      end
  | Plus cls :: re' =>
      match takeWhile cls s with
      | (EmptyString, _) => None
      | (_, rest) => matchHere re' cap rest
      end
  | Star cls :: re' => matchHere re' cap (snd (takeWhile cls s))
  | Capture cls :: re' =>
      match takeWhile cls s with
      | (EmptyString, _) => None
      | (run, rest) => matchHere re' (Some run) rest
      end
  end.

(** One attempt at the current position: the capture and the number of
    code units the match spans. *)
Definition matchAt (re : Regex) (s : string) : option (string * nat) :=
  match matchHere re None s with
  | Some (Some g, rest) => Some (g, String.length s - String.length rest)
  | _ => None
  end.

(** [while ((match = pattern.exec(s)) !== null)] with the [g] flag: every
    match from left to right, the search resuming where the last match
    ended. [skip] counts the code units still covered by the last match. *)
Fixpoint execAll (re : Regex) (s : string) (skip : nat) {struct s} : list string :=
  match s with
  | EmptyString => []
  | String _ s' =>
      match skip with
      | S k => execAll re s' k
      | O =>
          match matchAt re s with
          | Some (g, n) => g :: execAll re s' (n - 1)
          | None => execAll re s' 0
          end
      end
  end.

(** [s.match(re)] without the [g] flag: the capture of the leftmost match. *)
Fixpoint firstMatch (re : Regex) (s : string) : option string :=
  match s with
  | EmptyString => None
  | String _ s' =>
      match matchAt re s with
      | Some (g, _) => Some g
      | None => firstMatch re s'
      end
  end.

Fixpoint trimStart (s : string) : string :=
  match s with
  | String c s' => if isSpace c then trimStart s' else s
  | EmptyString => EmptyString
  end.

Fixpoint trimEnd (s : string) : string :=
  match s with
  | EmptyString => EmptyString
  | String c s' =>
      match trimEnd s' with
      | EmptyString => if isSpace c then EmptyString else String c EmptyString
      | t => String c t
      end
  end.

Definition trim (s : string) : string := trimEnd (trimStart s).

(** [s.includes(sub)] *)
Fixpoint includes (sub s : string) : bool :=
  String.prefix sub s ||
  match s with
  | String _ s' => includes sub s'
  | EmptyString => false
  end.

(** [Set.prototype.add] on a set kept in insertion order. *)
Definition setAdd (x : string) (l : list string) : list string :=
  if existsb (String.eqb x) l then l else l ++ [x].

Definition setHas (l : list string) (x : string) : bool :=
  existsb (String.eqb x) l.

End JsString.
Import JsString.

(* ===================================================================== *)
(** * kanban-planner.js                                                  *)
(* ===================================================================== *)

Module Planner.

(** [DEP_PATTERNS] *)
Definition bracketedId : Regex := [Lit "["; Capture isAlnum; Lit "]"].

Definition DEP_PATTERNS : list Regex :=
  [ [Lit "blocked"; Plus isSpace; Lit "by"; Plus isColonOrSpace] ++ bracketedId;
    [Lit "depends"; Plus isSpace; Lit "on"; Plus isColonOrSpace] ++ bracketedId;
    [Lit "after"; Plus isColonOrSpace] ++ bracketedId;
    [Lit "requires"; Plus isColonOrSpace] ++ bracketedId ].

(** A task as the kanban service returns it; [description] may be [null]. *)
Record TaskRecord : Type := mkTask {
  id : string;
  title : string;
  description : option string;
  priority : Z
}.

Definition parseDependencies (taskDescription : option string) : list string :=
  match taskDescription with
  | None => []
  | Some EmptyString => []
  | Some d =>
      fold_left
        (fun deps pattern => fold_left (fun acc m => setAdd m acc) (execAll pattern d 0) deps)
        DEP_PATTERNS []
  end.

Record GraphNode : Type := mkNode {
  task : TaskRecord;
  deps : list string;
  node_priority : Z;
  dependents : list string
}.

(** A [Map] from task id to node, in insertion order. *)
Definition Graph : Type := list (string * GraphNode).

Fixpoint get (k : string) (g : Graph) : option GraphNode :=
  match g with
  | [] => None
  | (k', n) :: g' => if String.eqb k k' then Some n else get k g'
  end.

(** [Map.prototype.set]: an existing key keeps its place. *)
Fixpoint set (k : string) (n : GraphNode) (g : Graph) : Graph :=
  match g with
  | [] => [(k, n)]
  | (k', n') :: g' => if String.eqb k k' then (k, n) :: g' else (k', n') :: set k n g'
  end.

Definition keys (g : Graph) : list string := map fst g.

Definition pushDependent (x : string) (n : GraphNode) : GraphNode :=
  mkNode (task n) (deps n) (node_priority n) (dependents n ++ [x]).

(** The node [buildDependencyGraph] stores for a task: the parsed
    references that name a task of the set, no dependents yet. *)
Definition newNode (taskIds : list string) (t : TaskRecord) : GraphNode :=
  mkNode t (filter (setHas taskIds) (parseDependencies (description t)))
         (priority t) [].

(** First loop: [graph.set(task.id, {...})] for every task. *)
Definition insertTasks (taskIds : list string) (tasks : list TaskRecord)
  (g : Graph) : Graph :=
  fold_left (fun g' t => set (id t) (newNode taskIds t) g') tasks g.

(** [depNode.dependents.push(id)], when [graph.get(dep)] is there. *)
Definition linkDependent (x : string) (g : Graph) (dep : string) : Graph :=
  match get dep g with
  | Some depNode => set dep (pushDependent x depNode) g
  | None => g
  end.

(** Second loop: over the entries, and over the deps of each. *)
Definition fillDependents (entries : list (string * list string)) (g : Graph)
  : Graph :=
  fold_left (fun g' e => fold_left (linkDependent (fst e)) (snd e) g') entries g.

Definition buildDependencyGraph (tasks : list TaskRecord) : Graph :=
  let taskIds := map id tasks in
  let graph := insertTasks taskIds tasks [] in
  fillDependents (map (fun e => (fst e, deps (snd e))) graph) graph.

(** [graph.get(id).deps] and [graph.get(id).priority]; the sort only looks
    up ids that are keys of the graph. *)
Definition depsOf (g : Graph) (x : string) : list string :=
  match get x g with Some n => deps n | None => [] end.

Definition priorityOf (g : Graph) (x : string) : Z :=
  match get x g with Some n => node_priority n | None => 0%Z end.

(** [ready.sort((a, b) => pa - pb)]: the sort of the host is stable, and a
    stable sort by a key has one result, which insertion computes. *)
Fixpoint insertByPriority (g : Graph) (x : string) (l : list string) : list string :=
  match l with
  | [] => [x]
  | y :: l' =>
      if (priorityOf g x - priorityOf g y <=? 0)%Z then x :: y :: l'
      else y :: insertByPriority g x l'
  end.

Definition sortByPriority (g : Graph) (l : list string) : list string :=
  fold_right (insertByPriority g) [] l.

Definition isReady (g : Graph) (completed : list string) (x : string) : bool :=
  forallb (setHas completed) (depsOf g x).

(** What [topologicalSort] produces: the waves it returns and, when it
    stopped on a cycle, the ids printed after
    "Circular dependency detected! Remaining tasks:". *)
Record SortResult : Type := mkSort {
  waves : list (list string);
  reported : option (list string)
}.

Definition addAll (xs completed : list string) : list string :=
  fold_left (fun c x => setAdd x c) xs completed.

Definition deleteAll (xs remaining : list string) : list string :=
  filter (fun x => negb (setHas xs x)) remaining.

(** The [while (remaining.size > 0)] loop of [topologicalSort]. Every pass
    either stops or deletes at least one id from [remaining]. *)
Equations sortLoop (g : Graph) (acc : list (list string))
  (completed remaining : list string) : SortResult
  by wf (List.length remaining) lt :=
  sortLoop g acc completed [] := mkSort acc None;
  sortLoop g acc completed (x :: rest)
    with inspect (filter (isReady g completed) (x :: rest)) := {
    | exist _ [] _ := mkSort acc (Some (x :: rest));
    | exist _ (r :: rs) Hready :=
        sortLoop g (acc ++ [sortByPriority g (r :: rs)])
                 (addAll (sortByPriority g (r :: rs)) completed)
                 (deleteAll (sortByPriority g (r :: rs)) (x :: rest)) }.
Next Obligation.
  change (List.length (deleteAll (sortByPriority g (r :: rs)) (x :: rest))
          < List.length (x :: rest)).
  change (filter (isReady g completed) (x :: rest) = r :: rs) in Hready.
  assert (Hin : In r (x :: rest)).
  { apply (proj1 (filter_In (isReady g completed) r (x :: rest))).
    rewrite Hready. now left. }
  assert (Hdel : setHas (sortByPriority g (r :: rs)) r = true).
  { apply existsb_exists. exists r. split; [| apply String.eqb_refl].
    assert (Hl : In r (r :: rs)) by now left.
    revert Hl. generalize (r :: rs). clear.
    intros l. induction l as [|y l IH]; simpl; [tauto |].
    intros [-> | Hl].
    - generalize (sortByPriority g l). intros s.
      induction s as [|z s IHs]; simpl; [now left |].
      destruct (_ <=? 0)%Z; simpl; auto.
    - specialize (IH Hl). revert IH. generalize (sortByPriority g l). intros s.
      induction s as [|z s IHs]; simpl; [tauto |].
      destruct (_ <=? 0)%Z; simpl; intuition. }
  revert Hdel. generalize (sortByPriority g (r :: rs)). intros w Hdel.
  clear Hready. unfold deleteAll. revert Hin. generalize (x :: rest).
  intros l. induction l as [|y l IH]; [contradiction |].
  cbn [filter List.length]. intros [Heq | Hin].
  - subst y. rewrite Hdel. cbn [negb].
    apply Nat.lt_succ_r, filter_length_le.
  - specialize (IH Hin). destruct (negb _); cbn [List.length]; lia.
Qed.

Definition topologicalSort (graph : Graph) : SortResult :=
  sortLoop graph [] [] (keys graph).

(** [generatePlan] *)
Record Project : Type := mkProject {
  project_id : string;
  project_name : string;
  project_path : string
}.

Record PlanTask : Type := mkPlanTask {
  pt_id : string;
  pt_title : string;
  pt_priority : Z;
  pt_deps : list string;
  pt_description : option string
}.

Record PlanWave : Type := mkPlanWave {
  level : nat;
  wave_tasks : list PlanTask;
  parallel : bool;
  wave_maxParallel : Z
}.

Record Plan : Type := mkPlan {
  plan_project : Project;
  totalTasks : nat;
  totalWaves : nat;
  maxParallel : Z;
  plan_waves : list PlanWave
}.

(** [graph.get(id)] of an id of a wave; a wave only holds keys. *)
Definition planTask (g : Graph) (x : string) : PlanTask :=
  match get x g with
  | Some node =>
      mkPlanTask x (title (task node)) (node_priority node) (deps node)
                 (description (task node))
  | None => mkPlanTask x EmptyString 0 [] None
  end.

Fixpoint planWaves (g : Graph) (maxPar : Z) (i : nat) (ws : list (list string))
  : list PlanWave :=
  match ws with
  | [] => []
  | taskIds :: ws' =>
      mkPlanWave i (map (planTask g) taskIds) (Nat.ltb 1 (List.length taskIds))
                 (Z.min (Z.of_nat (List.length taskIds)) maxPar)
      :: planWaves g maxPar (S i) ws'
  end.

Definition generatePlan (project : Project) (graph : Graph)
  (ws : list (list string)) (maxPar : Z) : Plan :=
  mkPlan project (List.length graph) (List.length ws) maxPar (planWaves graph maxPar 0 ws).

(** The planning steps of [main]: graph, waves, plan; with what
    [topologicalSort] printed on the error stream. *)
Definition planTasks (project : Project) (todo : list TaskRecord) (maxPar : Z)
  : Plan * option (list string) :=
  let graph := buildDependencyGraph todo in
  let sorted := topologicalSort graph in
  (generatePlan project graph (waves sorted) maxPar, reported sorted).

(** ** Notions the properties of the planner are stated with *)

(** [a] depends on [b]: [b] is among the deps of the node of [a]. *)
Definition edge (g : Graph) (a b : string) : Prop := In b (depsOf g a).

(** [a] lies on a dependency cycle. *)
Definition onCycle (g : Graph) (a : string) : Prop :=
  clos_trans string (edge g) a a.

Definition acyclic (g : Graph) : Prop := forall a, ~ onCycle g a.

(** [x] is listed in the wave of index [i]. *)
Definition inWave (ws : list (list string)) (i : nat) (x : string) : Prop :=
  exists w, nth_error ws i = Some w /\ In x w.

(** Every dependency of a scheduled task sits in a strictly earlier wave. *)
Definition respectsDeps (g : Graph) (ws : list (list string)) : Prop :=
  forall i x, inWave ws i x ->
  forall d, In d (depsOf g x) -> exists j, j < i /\ inWave ws j d.

(** The id, deps and priority of every node, in key order: all that
    [topologicalSort] looks at. *)
Definition sched (g : Graph) : list (string * (list string * Z)) :=
  map (fun e => (fst e, (deps (snd e), node_priority (snd e)))) g.

(** What every pass of the loop keeps true. *)
Record sortInv (g : Graph) (acc : list (list string)) (c rem : list string)
  : Prop := mkSortInv {
  inv_rem : NoDup rem;
  inv_acc : NoDup (List.concat acc);
  inv_completed : forall x, In x c <-> In x (List.concat acc);
  inv_keys : forall x, In x (keys g) <-> In x (List.concat acc) \/ In x rem;
  inv_apart : forall x, In x (List.concat acc) -> ~ In x rem;
  inv_deps : respectsDeps g acc
}.

(** Two tasks that differ at most in references to ids outside [taskIds]. *)
Definition sameButDangling (taskIds : list string) (t t' : TaskRecord) : Prop :=
  id t = id t' /\ priority t = priority t' /\
  filter (setHas taskIds) (parseDependencies (description t))
  = filter (setHas taskIds) (parseDependencies (description t')).

(** Ascending priority, as the comparator of the sort reads it. *)
Definition priorityLe (g : Graph) (a b : string) : Prop :=
  (priorityOf g a <= priorityOf g b)%Z.

End Planner.

(* ===================================================================== *)
(** * shared.js and batch-llm-runner.js                                  *)
(* ===================================================================== *)

Module Runner.

(** ** Values *)

Inductive JsVal : Type :=
| JNull
| JBool (b : bool)
| JNum (z : Z)
| JStr (s : string).

(** An object literal: its own keys in insertion order. *)
Definition JsObject : Type := list (string * JsVal).

Fixpoint objGet (k : string) (o : JsObject) : option JsVal :=
  match o with
  | [] => None
  | (k', v) :: o' => if String.eqb k k' then Some v else objGet k o'
  end.

Fixpoint objSet (k : string) (v : JsVal) (o : JsObject) : JsObject :=
  match o with
  | [] => [(k, v)]
  | (k', v') :: o' =>
      if String.eqb k k' then (k, v) :: o' else (k', v') :: objSet k v o'
  end.

(** [{ ...base, ...ext }] *)
Definition spread (base ext : JsObject) : JsObject :=
  fold_left (fun o kv => objSet (fst kv) (snd kv) o) ext base.

(** A call that returns or throws; [Threw] carries [e.message]. *)
Inductive Exc (A : Type) : Type :=
| Ok (a : A)
| Threw (message : string).
Arguments Ok {A} a.
Arguments Threw {A} message.

(** ** shared.js *)

Definition DEFAULT_TIMEOUT : Z := 180000.
Definition DEFAULT_CONCURRENCY : Z := 6.

(** What a path holds for [fs.readFile] followed by [JSON.parse]: nothing,
    something that cannot be read, text that is not JSON, or the JSON text
    of a value. *)
Inductive File (A : Type) : Type :=
| Missing
| Unreadable
| NotJson (text : string)
| Json (value : A).
Arguments Missing {A}.
Arguments Unreadable {A}.
Arguments NotJson {A} text.
Arguments Json {A} value.

(** [readJsonSafe]: whatever [readFile] or [JSON.parse] throws is caught. *)
Definition readJsonSafe {A : Type} (file : File A) (defaultValue : A) : A :=
  match file with
  | Json value => value
  | Missing | Unreadable | NotJson _ => defaultValue
  end.

(** [writeJsonSafe]: the file afterwards and the boolean returned; a
    failing [writeFile] is caught and leaves [false]. *)
Definition writeJsonSafe {A : Type} (writable : bool) (file : File A) (data : A)
  : File A * bool :=
  if writable then (Json data, true) else (file, false).

(** [unlinkSafe] *)
Definition unlinkSafe {A : Type} (removable : bool) (file : File A)
  : File A * bool :=
  match file with
  | Missing => (Missing, false)
  | _ => if removable then (Missing, true) else (file, false)
  end.

(** ** runCodeagent *)

Record LlmResult : Type := mkLlm {
  success : bool;
  output : string;
  sessionId : option string;
  error : option string
}.

(** The [code] handed to the [close] listener; [null] after a signal. *)
Inductive ExitCode : Type :=
| Exited (n : N)
| Signalled.

(** What the spawned child and the timer deliver to the listeners. *)
Inductive ChildEvent : Type :=
| StdoutData (chunk : string)
| StderrData (chunk : string)
| Close (code : ExitCode)
| SpawnError (message : string)
| TimerFired.

(** [/SESSION_ID:\s*([a-f0-9-]+)/i] *)
Definition SESSION_ID : Regex := [Lit "SESSION_ID:"; Star isSpace; Capture isHexDash].

(** The variables of the promise body; [resolved] holds the value the
    promise was resolved with, [killed] whether SIGTERM was sent. *)
Record ChildState : Type := mkChild {
  stdout : string;
  stderr : string;
  child_sessionId : option string;
  resolved : option LlmResult;
  killed : bool
}.

Definition spawned : ChildState := mkChild EmptyString EmptyString None None false.

(** [`${code}`] *)
Definition showCode (code : ExitCode) : string :=
  match code with
  | Exited n => NilZero.string_of_uint (N.to_uint n)
  | Signalled => "null"
  end.

Definition isZero (code : ExitCode) : bool :=
  match code with
  | Exited 0 => true
  | _ => false
  end.

Definition nonEmpty (s : string) : bool :=
  match s with
  | EmptyString => false
  | _ => true
  end.

Definition onClose (st : ChildState) (code : ExitCode) : LlmResult :=
  if isZero code && nonEmpty (trim (stdout st))
  then mkLlm true (trim (stdout st)) (child_sessionId st) None
  else mkLlm false (trim (stdout st)) (child_sessionId st)
             (Some (if isZero code then "empty output"
                    else String.append "exit code " (showCode code))).

(** One listener call. *)
Definition listen (st : ChildState) (e : ChildEvent) : ChildState :=
  match e with
  | StdoutData chunk =>
      mkChild (String.append (stdout st) chunk) (stderr st) (child_sessionId st)
              (resolved st) (killed st)
  | StderrData chunk =>
      mkChild (stdout st) (String.append (stderr st) chunk)
              (match firstMatch SESSION_ID chunk with
               | Some m => Some m
               | None => child_sessionId st
               end)
              (resolved st) (killed st)
  | TimerFired =>
      match resolved st with
      | Some _ => st
      | None =>
          mkChild (stdout st) (stderr st) (child_sessionId st)
                  (Some (mkLlm false (stdout st) (child_sessionId st) (Some "timeout")))
                  true
      end
  | Close code =>
      match resolved st with
      | Some _ => st
      | None =>
          mkChild (stdout st) (stderr st) (child_sessionId st)
                  (Some (onClose st code)) (killed st)
      end
  | SpawnError message =>
      match resolved st with
      | Some _ => st
      | None =>
          mkChild (stdout st) (stderr st) (child_sessionId st)
                  (Some (mkLlm false EmptyString (child_sessionId st) (Some message)))
                  (killed st)
      end
  end.

Definition childAfter (events : list ChildEvent) : ChildState :=
  fold_left listen events spawned.

(** How a child behaves, given the prompt on its stdin, its working
    directory and the delay of the timer. *)
Definition Spawn : Type := string -> string -> Z -> list ChildEvent.

(** The value the promise of [runCodeagent] resolves with; [None] while
    neither the child nor the timer has decided. *)
Definition runCodeagent (child : Spawn) (prompt cwd : string) (timeout : Z)
  : option LlmResult :=
  resolved (childAfter (child prompt cwd timeout)).

(** ** runWithConcurrency *)

Section Pool.

Context {T R Sh : Type}.

(** [concurrency]; and the handler: from the index of the task in [tasks],
    the task and the state the handlers share, the value its promise
    resolves with and the state it leaves; [None] while it cannot finish. *)
Variable concurrency : Z.
Variable handler : nat -> T -> Sh -> option (R * Sh).

(** A promise of [results]: its handler still at work, its handler done
    (the [then] callback not yet run), or settled and deleted from
    [executing]. *)
Inductive Phase : Type :=
| Working
| Done (r : R)
| Settled (r : R).

Record Pool : Type := mkPool {
  queue : list T;                 (* the tasks the for-loop has not reached *)
  promises : list (T * Phase);    (* [results], in start order *)
  awaiting : bool;                (* suspended in [await Promise.race(executing)] *)
  shared : Sh
}.

Definition isSettled (p : T * Phase) : bool :=
  match snd p with
  | Settled _ => true
  | _ => false
  end.

(** [executing.size]: the promises not yet settled. *)
Definition executingSize (ps : list (T * Phase)) : nat :=
  List.length (filter (fun p => negb (isSettled p)) ps).

(** What the event loop may do next. *)
Inductive Event : Type :=
| Launch                (* the next pass of the for-loop *)
| Finish (k : nat)      (* the handler of promise [k] runs to its end *)
| Settle (k : nat).     (* promise [k] settles: [executing.delete(promise)] *)

Fixpoint setNth {A : Type} (k : nat) (a : A) (l : list A) : list A :=
  match l, k with
  | [], _ => []
  | _ :: l', O => a :: l'
  | x :: l', S k' => x :: setNth k' a l'
  end.

Definition step (p : Pool) (e : Event) : option Pool :=
  match e with
  | Launch =>
      if awaiting p then None
      else
        match queue p with
        | [] => None
        | task :: rest =>
            let ps := promises p ++ [(task, Working)] in
            Some (mkPool rest ps
                         (concurrency <=? Z.of_nat (executingSize ps))%Z
                         (shared p))
        end
  | Finish k =>
      match nth_error (promises p) k with
      | Some (task, Working) =>
          match handler k task (shared p) with
          | Some (r, s') =>
              Some (mkPool (queue p) (setNth k (task, Done r) (promises p))
                           (awaiting p) s')
          | None => None
          end
      | _ => None
      end
  | Settle k =>
      match nth_error (promises p) k with
      | Some (task, Done r) =>
          Some (mkPool (queue p) (setNth k (task, Settled r) (promises p))
                       false (shared p))
      | _ => None
      end
  end.

Fixpoint exec (schedule : list Event) (p : Pool) : option Pool :=
  match schedule with
  | [] => Some p
  | e :: schedule' =>
      match step p e with
      | Some p' => exec schedule' p'
      | None => None
      end
  end.

Definition start (tasks : list T) (s : Sh) : Pool := mkPool tasks [] false s.

(** [Promise.all(results)] has resolved: the loop is over and every
    promise settled. *)
Definition drained (p : Pool) : bool :=
  match queue p with
  | [] => forallb isSettled (promises p)
  | _ => false
  end.

Fixpoint values (ps : list (T * Phase)) : list R :=
  match ps with
  | [] => []
  | (_, Settled r) :: ps' => r :: values ps'
  | (_, Done r) :: ps' => r :: values ps'
  | (_, Working) :: ps' => values ps'
  end.

(** The array [runWithConcurrency] resolves with, and the shared state
    then, along one interleaving; [None] when the schedule is not one of
    this call or stops before the call returns. *)
Definition runWithConcurrency (tasks : list T) (s : Sh) (schedule : list Event)
  : option (list R * Sh) :=
  match exec schedule (start tasks s) with
  | Some p => if drained p then Some (values (promises p), shared p) else None
  | None => None
  end.

End Pool.

Arguments Working {R}.
Arguments Done {R} r.
Arguments Settled {R} r.

Arguments Phase : clear implicits.
Arguments Pool : clear implicits.

(** ** BatchRunner *)

Record BatchRunnerOptions : Type := mkOptions {
  opt_name : string;
  opt_concurrency : option Z;
  opt_timeout : option Z
}.

Record BatchRunner : Type := mkRunner {
  name : string;
  concurrency : Z;
  timeout : Z
}.

(** [value || fallback] on an optional number: absent and [0] are falsy. *)
Definition orElse (value : option Z) (fallback : Z) : Z :=
  match value with
  | None => fallback
  | Some 0%Z => fallback
  | Some z => z
  end.

(** The constructor. *)
Definition newBatchRunner (options : BatchRunnerOptions) : BatchRunner :=
  mkRunner (opt_name options)
           (orElse (opt_concurrency options) DEFAULT_CONCURRENCY)
           (orElse (opt_timeout options) DEFAULT_TIMEOUT).

(** A work item: its [id] and whatever else [scan] put in it. *)
Record Item : Type := mkItem {
  item_id : string;
  item_data : JsObject
}.

(** The three callbacks of [run]; as its typedef has it, [handleResult]
    resolves with an object, or throws. *)
Record TaskHandlers : Type := mkHandlers {
  scan : string -> Exc (list Item);
  buildPrompt : Item -> Exc string;
  handleResult : Item -> LlmResult -> Exc JsObject
}.

Record Progress : Type := mkProgress {
  status : string;
  startedAt : option string;
  items : list Item;
  completed : list string;
  results : list JsObject
}.

Record RunOptions : Type := mkRunOptions {
  resume : option bool;
  cwd : option string
}.

(** What [run] meets outside the program: the directory of the process,
    the clock, the child spawned for the item of each index, and which
    writes succeed: the truncation of the log file, the [k]-th call of
    [saveProgress], the result file, the removal of the checkpoint. *)
Record World : Type := mkWorld {
  process_cwd : string;
  now : string;
  child : nat -> Spawn;
  logWritable : bool;
  progressWritable : nat -> bool;
  resultWritable : bool;
  progressRemovable : bool
}.

(** The object [progress] the handlers share, the checkpoint file, the
    number of [saveProgress] calls so far and the snapshots that reached
    the disk, latest first. *)
Record RunState : Type := mkState {
  progress : Progress;
  progressFile : File Progress;
  saves : nat;
  written : list Progress
}.

Definition idle : Progress := mkProgress "idle" None [] [] [].

Definition loadProgress (file : File Progress) : Progress :=
  readJsonSafe file idle.

(** [saveProgress]: the boolean of [writeJsonSafe] is dropped. [JSON.stringify]
    runs when the call is made, so the snapshot is the object as it is then. *)
Definition saveProgress (w : World) (st : RunState) : RunState :=
  let (file, ok) :=
    writeJsonSafe (progressWritable w (saves st)) (progressFile st) (progress st) in
  mkState (progress st) file (S (saves st))
          (if ok then progress st :: written st else written st).

Definition clearProgress (w : World) (file : File Progress) : File Progress :=
  fst (unlinkSafe (progressRemovable w) file).

(** [progress.completed.push(id); progress.results.push(record)] *)
Definition pushResult (st : RunState) (x : string) (record : JsObject) : RunState :=
  mkState (mkProgress (status (progress st)) (startedAt (progress st))
                      (items (progress st))
                      (completed (progress st) ++ [x])
                      (results (progress st) ++ [record]))
          (progressFile st) (saves st) (written st).

Definition errorResult (item : Item) (message : string) : JsObject :=
  [("id", JStr (item_id item)); ("status", JStr "error"); ("reason", JStr message)].

(** The record the handler of [run] makes for an item: [{ id, ...result }]
    from the [try] block, or the error record of the [catch] block when
    [buildPrompt] or [handleResult] throws. [None] while the child runs. *)
Definition outcome (runner : BatchRunner) (h : TaskHandlers) (w : World)
  (dir : string) (k : nat) (item : Item) : option JsObject :=
  match buildPrompt h item with
  | Threw message => Some (errorResult item message)
  | Ok prompt =>
      match runCodeagent (child w k) prompt dir (timeout runner) with
      | None => None
      | Some llmResult =>
          match handleResult h item llmResult with
          | Threw message => Some (errorResult item message)
          | Ok result => Some (spread [("id", JStr (item_id item))] result)
          end
      end
  end.

(** The handler [run] passes to [runWithConcurrency]: record, checkpoint,
    resolve with the record. *)
Definition itemHandler (runner : BatchRunner) (h : TaskHandlers) (w : World)
  (dir : string) (k : nat) (item : Item) (st : RunState)
  : option (JsObject * RunState) :=
  match outcome runner h w dir k item with
  | Some record => Some (record, saveProgress w (pushResult st (item_id item) record))
  | None => None
  end.

(** [existingResults]: the very array [progress.results] after a resume,
    an array of its own otherwise. *)
Inductive Existing : Type :=
| SameAsProgressResults
| Own (records : list JsObject).

Record Started : Type := mkStarted {
  itemsToProcess : list Item;
  existingResults : Existing;
  state0 : RunState
}.

Definition resumeMode (options : RunOptions) : bool :=
  match resume options with
  | Some b => b
  | None => false
  end.

Definition workingDir (options : RunOptions) (w : World) : string :=
  match cwd options with
  | None | Some EmptyString => process_cwd w
  | Some dir => dir
  end.

(** [run] down to the call of [runWithConcurrency]. *)
Definition begin (h : TaskHandlers) (options : RunOptions) (w : World)
  (file : File Progress) : Exc Started :=
  let loaded := loadProgress file in
  if resumeMode options && String.eqb (status loaded) "running" then
    Ok (mkStarted
          (filter (fun item => negb (setHas (completed loaded) (item_id item)))
                  (items loaded))
          SameAsProgressResults
          (mkState loaded file 0 []))
  else
    match scan h (workingDir options w) with
    | Threw message => Threw message
    | Ok allItems =>
        Ok (mkStarted allItems (Own [])
              (saveProgress w
                 (mkState (mkProgress "running" (Some (now w)) allItems [] [])
                          file 0 [])))
    end.

Record ResultData : Type := mkResultData {
  completedAt : string;
  rd_status : string;
  processed : nat;
  byStatus : list (string * nat);
  failed : nat;
  failedList : list JsObject
}.

(** [r.status], when it is a string. *)
Definition statusOf (r : JsObject) : option string :=
  match objGet "status" r with
  | Some (JStr s) => Some s
  | _ => None
  end.

(** [byStatus[s] = (byStatus[s] || 0) + 1] *)
Fixpoint count (s : string) (tally : list (string * nat)) : list (string * nat) :=
  match tally with
  | [] => [(s, 1)]
  | (s', n) :: tally' =>
      if String.eqb s s' then (s', S n) :: tally' else (s', n) :: count s tally'
  end.

Fixpoint statuses (rs : list JsObject) : option (list string) :=
  match rs with
  | [] => Some []
  | r :: rs' =>
      match statusOf r, statuses rs' with
      | Some s, Some ss => Some (s :: ss)
      | _, _ => None
      end
  end.

Definition isError (r : JsObject) : bool :=
  match statusOf r with
  | Some s => includes "error" s
  | None => false
  end.

(** The summary; [r.status.includes] throws on a record without a string
    status. *)
Definition summarize (w : World) (allResults : list JsObject) : Exc ResultData :=
  match statuses allResults with
  | None => Threw "r.status.includes is not a function"
  | Some ss =>
      Ok (mkResultData (now w) "success" (List.length allResults)
                       (fold_left (fun tally s => count s tally) ss [])
                       (List.length (filter isError allResults))
                       (filter isError allResults))
  end.

(** How a call of [run] ends along one interleaving of its handlers: it
    returns the summary, leaving the checkpoint and result files as given;
    or it rejects; or the schedule is not one of this call. *)
Inductive RunOutcome : Type :=
| Returned (data : ResultData) (checkpoint : File Progress) (resultFile : ResultData)
| Rejected (message : string)
| NotARun.

Definition run (runner : BatchRunner) (h : TaskHandlers) (options : RunOptions)
  (w : World) (file : File Progress) (schedule : list Event) : RunOutcome :=
  if negb (logWritable w) then Rejected "cannot write the log file"
  else
    match begin h options w file with
    | Threw message => Rejected message
    | Ok started =>
        match runWithConcurrency (concurrency runner)
                (itemHandler runner h w (workingDir options w))
                (itemsToProcess started) (state0 started) schedule with
        | None => NotARun
        | Some (newResults, st) =>
            let existing :=
              match existingResults started with
              | SameAsProgressResults => results (progress st)
              | Own records => records
              end in
            match summarize w (existing ++ newResults) with
            | Threw message => Rejected message
            | Ok resultData =>
                if resultWritable w
                then Returned resultData (clearProgress w (progressFile st)) resultData
                else Rejected "cannot write the result file"
            end
        end
    end.


(** ** Notions the properties of the runner are stated with *)

(** The size of [executing] never passes the limit, and stays below it
    whenever the loop is free to start the next task. *)
Definition withinLimit {T R Sh : Type} (limit : Z) (p : Pool T R Sh) : Prop :=
  (Z.of_nat (executingSize (promises p)) <= limit)%Z /\
  (awaiting p = false -> (Z.of_nat (executingSize (promises p)) < limit)%Z).

(** The tasks whose handler has run to its end, with what it resolved
    with, in start order. *)
Fixpoint finished {T R : Type} (ps : list (T * Phase R)) : list (T * R) :=
  match ps with
  | [] => []
  | (_, Working) :: ps' => finished ps'
  | (t, Done r) :: ps' => (t, r) :: finished ps'
  | (t, Settled r) :: ps' => (t, r) :: finished ps'
  end.

(** The record of each item of a list, the first one having index [k]. *)
Fixpoint outcomes (runner : BatchRunner) (h : TaskHandlers) (w : World)
  (dir : string) (k : nat) (todo : list Item) : list (option JsObject) :=
  match todo with
  | [] => []
  | item :: todo' =>
      outcome runner h w dir k item :: outcomes runner h w dir (S k) todo'
  end.

(** How the pool of a run relates to the Progress it started from:
    [items] never changes, the promises follow the list of items to
    process, every finished handler resolved with the record of its item,
    and [completed] and [results] grew by the finished items, in the order
    they finished. *)
Record tracks (runner : BatchRunner) (h : TaskHandlers) (w : World) (dir : string)
  (from : Progress) (todo : list Item) (p : Pool Item JsObject RunState)
  : Prop := mkTracks {
  tr_items : items (progress (shared p)) = items from;
  tr_status : status (progress (shared p)) = status from;
  tr_order : map fst (promises p) ++ queue p = todo;
  tr_records :
    forall k t r,
      nth_error (promises p) k = Some (t, Done r) \/
      nth_error (promises p) k = Some (t, Settled r) ->
      outcome runner h w dir k t = Some r;
  tr_pushed :
    exists done,
      Permutation done (finished (promises p)) /\
      completed (progress (shared p))
      = completed from ++ map (fun d => item_id (fst d)) done /\
      results (progress (shared p)) = results from ++ map snd done
}.

(** A record with a string [status]. *)
Definition typedRecord (r : JsObject) : Prop := statusOf r <> None.





(** Every handler of the list can finish: its [buildPrompt] throws or its
    child exits, fails to spawn or is killed by the timer. *)
Definition responsive (runner : BatchRunner) (h : TaskHandlers) (w : World)
  (dir : string) (todo : list Item) : Prop :=
  forall k item, nth_error todo k = Some item ->
                 outcome runner h w dir k item <> None.

(** A checkpoint file [loadProgress] cannot use. *)
Definition unusable (file : File Progress) : bool :=
  match file with
  | Json _ => false
  | Missing | Unreadable | NotJson _ => true
  end.

(** The interleaving with one handler at a time: start a task, let its
    handler finish, let its promise settle, [n] times from index [k]. *)
Fixpoint sequential (k n : nat) : list Event :=
  match n with
  | O => []
  | S n' => Launch :: Finish k :: Settle k :: sequential (S k) n'
  end.


(** [handleResult] keeps to its typedef: the record made of what it
    returns has a string [status]. *)
Definition typedHandlers (h : TaskHandlers) : Prop :=
  forall item llmResult result,
    handleResult h item llmResult = Ok result ->
    exists s, statusOf (spread [("id", JStr (item_id item))] result) = Some s.

End Runner.
Import Runner.

(* ===================================================================== *)
(** * Sample inputs                                                      *)
(* ===================================================================== *)

Module Samples.
Import Runner.

Definition itemA : Item := mkItem "A" [("path", JStr "src/a")].
Definition itemB : Item := mkItem "B" [("path", JStr "src/b")].
Definition itemC : Item := mkItem "C" [("path", JStr "src/c")].
Definition itemD : Item := mkItem "D" [("path", JStr "src/d")].

Definition orNull (s : option string) : JsVal :=
  match s with
  | Some text => JStr text
  | None => JNull
  end.

(** Handlers shaped like those of module-analyzer.js: a failed call is
    recorded as [llm_error] with the error of the call as its reason. *)
Definition analyzerHandlers : TaskHandlers :=
  mkHandlers
    (fun _ => Ok [itemA; itemB; itemC; itemD])
    (fun item => Ok (String.append "analyze " (item_id item)))
    (fun _ result =>
       if success result then Ok [("status", JStr "processed")]
       else Ok [("status", JStr "llm_error");
                ("reason", orNull (error result));
                ("sessionId", orNull (sessionId result))]).



(** Children: one that answers, one the timer has to kill, one that exits
    with code 0 and no output, one that exits with code 2. *)
Definition answers : Spawn := fun _ _ _ => [StdoutData " {} "; Close (Exited 0)].
Definition hangs : Spawn := fun _ _ _ => [StdoutData "part"; TimerFired; Close Signalled].
Definition crashes : Spawn :=
  fun _ _ _ => [StderrData "SESSION_ID: 1f-2a"; Close (Exited 2)].

Definition worldOf (children : nat -> Spawn) (checkpointWritable : bool) : World :=
  mkWorld "/repo" "2026-01-01T00:00:00.000Z" children true
          (fun _ => checkpointWritable) true true.

Definition auditRunner : BatchRunner :=
  newBatchRunner (mkOptions "code-audit" (Some 8%Z) (Some 120000%Z)).

Definition recordOf (x : string) : JsObject :=
  [("id", JStr x); ("status", JStr "processed")].

(** The checkpoint of the specification: A and B completed out of A, B, C, D. *)
Definition halfDone : Progress :=
  mkProgress "running" (Some "2025-12-31T23:00:00.000Z")
             [itemA; itemB; itemC; itemD] ["A"; "B"]
             [recordOf "A"; recordOf "B"].

End Samples.

(* ===================================================================== *)
(** * shared.js: reading with a line limit, the history file             *)
(* ===================================================================== *)

Module Shared.
Import Runner.

Definition DEFAULT_MAX_LINES : Z := 100.

Definition newline : ascii := "010"%char.

(** [content.split('\n')] *)
Fixpoint split (s : string) : list string :=
  match s with
  | EmptyString => [EmptyString]
  | String c s' =>
      if Ascii.eqb c newline then EmptyString :: split s'
      else
        match split s' with
        | [] => [String c EmptyString]
        | line :: lines => String c line :: lines
        end
  end.

(** [lines.join('\n')] *)
Fixpoint join (lines : list string) : string :=
  match lines with
  | [] => EmptyString
  | [line] => line
  | line :: rest => String.append line (String newline (join rest))
  end.

(** An integer in a template literal. *)
Definition showNumber (z : Z) : string := NilZero.string_of_int (Z.to_int z).

(** A relative index of [Array.prototype.slice]: counted from the end when
    negative, clamped to the array. *)
Definition relative (len i : Z) : Z :=
  if (i <? 0)%Z then Z.max (len + i) 0 else Z.min i len.

(** [l.slice(first, last)] *)
Definition slice {A : Type} (first last : Z) (l : list A) : list A :=
  let len := Z.of_nat (List.length l) in
  let k := relative len first in
  firstn (Z.to_nat (relative len last - k)) (skipn (Z.to_nat k) l).

(** [l.slice(first)] *)
Definition sliceFrom {A : Type} (first : Z) (l : list A) : list A :=
  slice first (Z.of_nat (List.length l)) l.

(** [readFileSafe]: [content] is what [fs.readFile] gives, [None] when it
    throws; [maxLines] is [None] when the argument is left out. *)
Definition readFileSafe (content : option string) (maxLines : option Z)
  : option string :=
  let maxLines :=
    match maxLines with
    | Some n => n
    | None => DEFAULT_MAX_LINES
    end in
  match content with
  | None => None
  | Some content =>
      let lines := split content in
      if (maxLines <? Z.of_nat (List.length lines))%Z then
        Some (String.append (join (slice 0 maxLines lines))
                (String.append (String newline "... (")
                   (String.append
                      (showNumber (Z.of_nat (List.length lines) - maxLines))
                      " more lines)")))
      else Some content
  end.

(** What [JSON.parse] of a history file gives: an array of entries, or a
    value without [push]. *)
Inductive HistoryJson : Type :=
| Entries (entries : list JsObject)
| NoArray.

(** [archiveToHistory]: the file afterwards and the boolean returned.
    [history.push] on a value that is no array throws, which the [catch]
    turns into [false]. *)
Definition archiveToHistory (writable : bool) (now : string)
  (file : File HistoryJson) (result : JsObject) (maxEntries : option Z)
  : File HistoryJson * bool :=
  let maxEntries :=
    match maxEntries with
    | Some n => n
    | None => 10%Z
    end in
  match readJsonSafe file (Entries []) with
  | NoArray => (file, false)
  | Entries history =>
      let history := history ++ [spread result [("archivedAt", JStr now)]] in
      let history :=
        if (maxEntries <? Z.of_nat (List.length history))%Z
        then sliceFrom (- maxEntries) history
        else history in
      writeJsonSafe writable file (Entries history)
  end.

End Shared.

(* ===================================================================== *)
(** * Further notions                                                    *)
(* ===================================================================== *)

Module Notions.
Import Planner Runner Shared.

(** Every code unit of a string lies in a class. *)
Fixpoint stringAll (cls : ascii -> bool) (s : string) : bool :=
  match s with
  | EmptyString => true
  | String c s' => cls c && stringAll cls s'
  end.

(** [graph.get(id).dependents] *)
Definition dependentsOf (g : Graph) (x : string) : list string :=
  match get x g with Some n => dependents n | None => [] end.

(** From the second wave on, every id has a dependency in the wave just
    before its own. *)
Definition tight (g : Graph) (ws : list (list string)) : Prop :=
  forall i x, inWave ws (S i) x ->
  exists d, In d (depsOf g x) /\ inWave ws i d.

(** The ids of a list whose node has priority [p]. *)
Definition withPriority (g : Graph) (p : Z) (l : list string) : list string :=
  filter (fun x => Z.eqb (priorityOf g x) p) l.

(** The promises whose handler is still at work. *)
Definition isWorking {T R : Type} (p : T * Phase R) : bool :=
  match snd p with
  | Working => true
  | _ => false
  end.

Definition isDone {T R : Type} (p : T * Phase R) : bool :=
  match snd p with
  | Done _ => true
  | _ => false
  end.


(** What is left to do in a pool: three steps for a task not started, two
    for a handler at work, one for a promise to settle. *)
Definition stepsLeft {T R Sh : Type} (p : Pool T R Sh) : nat :=
  3 * List.length (queue p)
  + 2 * List.length (filter isWorking (promises p))
  + List.length (filter isDone (promises p)).

(** [byStatus[s]], 0 when the key is absent. *)
Fixpoint tallyOf (s : string) (tally : list (string * nat)) : nat :=
  match tally with
  | [] => 0
  | (s', n) :: tally' => if String.eqb s s' then n else tallyOf s tally'
  end.

Definition hasStatus (s : string) (r : JsObject) : bool :=
  match statusOf r with
  | Some s' => String.eqb s s'
  | None => false
  end.

(** A value [runCodeagent] may resolve with: success goes with no error
    and some output, failure with an error. *)
Definition wellFormed (r : LlmResult) : Prop :=
  (success r = true -> error r = None /\ output r <> EmptyString) /\
  (success r = false -> error r <> None).

(** A string without a line break. *)
Definition oneLine (s : string) : bool :=
  stringAll (fun c => negb (Ascii.eqb c newline)) s.

(** The property names every object inherits from [Object.prototype]: on
    these [byStatus[s]] is not [undefined] before the first count. *)
Definition inheritedKeys : list string :=
  ["constructor"; "__defineGetter__"; "__defineSetter__"; "hasOwnProperty";
   "__lookupGetter__"; "__lookupSetter__"; "isPrototypeOf";
   "propertyIsEnumerable"; "toString"; "valueOf"; "__proto__";
   "toLocaleString"].

(** A record whose status is a string that is no inherited name. *)
Definition plainStatus (r : JsObject) : bool :=
  match statusOf r with
  | Some s => negb (setHas inheritedKeys s)
  | None => false
  end.

(** A handler for examples: answers with the task and counts the calls in
    the shared state. *)
Definition countingHandler (k : nat) (t : string) (n : nat)
  : option (string * nat) := Some (t, S n).

End Notions.

(* ===================================================================== *)
(** * Properties of the planner                                          *)
(* ===================================================================== *)

Module PlannerFacts.
Import Planner.

Lemma setHas_In (l : list string) (x : string) : setHas l x = true <-> In x l.
Proof.
  unfold setHas. rewrite existsb_exists. split.
  - intros (y & Hy & Heq). apply String.eqb_eq in Heq. now subst.
  - intros H. exists x. split; [assumption | apply String.eqb_refl].
Qed.

Lemma setHas_false (l : list string) (x : string) : setHas l x = false <-> ~ In x l.
Proof.
  rewrite <- setHas_In. destruct (setHas l x); intuition congruence.
Qed.

Lemma setAdd_In x y l : In y (setAdd x l) <-> y = x \/ In y l.
Proof.
  unfold setAdd. destruct (existsb _ l) eqn:E.
  - split; [auto |]. intros [-> | H]; [| exact H].
    now apply setHas_In.
  - rewrite in_app_iff. simpl. intuition.
Qed.

Lemma addAll_In xs y c : In y (addAll xs c) <-> In y c \/ In y xs.
Proof.
  unfold addAll. revert c.
  induction xs as [|x xs IH]; intros c; simpl; [tauto |].
  rewrite IH, setAdd_In. intuition.
Qed.

Lemma deleteAll_In xs y l : In y (deleteAll xs l) <-> In y l /\ ~ In y xs.
Proof.
  unfold deleteAll. rewrite filter_In, negb_true_iff, setHas_false. tauto.
Qed.

Lemma insertByPriority_perm g x l : Permutation (x :: l) (insertByPriority g x l).
Proof.
  induction l as [|y l IH]; simpl; [reflexivity |].
  destruct (_ <=? 0)%Z; [reflexivity |].
  rewrite perm_swap. now constructor.
Qed.

Lemma sortByPriority_perm g l : Permutation l (sortByPriority g l).
Proof.
  induction l as [|x l IH]; simpl; [constructor |].
  rewrite <- insertByPriority_perm. now constructor.
Qed.

Lemma sortByPriority_In g y l : In y (sortByPriority g l) <-> In y l.
Proof.
  split; apply Permutation_in;
    [symmetry |]; apply sortByPriority_perm.
Qed.

Lemma deleteAll_lt (w l : list string) (r : string) :
  In r l -> In r w -> List.length (deleteAll w l) < List.length l.
Proof.
  intros Hin Hr. apply setHas_In in Hr. unfold deleteAll.
  induction l as [|y l IHl]; [contradiction |].
  cbn [filter List.length]. destruct Hin as [Heq | Hin].
  - subst y. rewrite Hr. cbn [negb].
    apply Nat.lt_succ_r, filter_length_le.
  - specialize (IHl Hin). destruct (negb _); cbn [List.length]; lia.
Qed.

(** One pass of the loop, as the source writes it. *)
Lemma sortLoop_unfold g acc completed remaining :
  sortLoop g acc completed remaining =
  match remaining with
  | [] => mkSort acc None
  | _ :: _ =>
      match filter (isReady g completed) remaining with
      | [] => mkSort acc (Some remaining)
      | r :: rs =>
          sortLoop g (acc ++ [sortByPriority g (r :: rs)])
                   (addAll (sortByPriority g (r :: rs)) completed)
                   (deleteAll (sortByPriority g (r :: rs)) remaining)
      end
  end.
Proof.
  destruct remaining as [|x rest]; [now rewrite sortLoop_equation_1 |].
  rewrite sortLoop_equation_2.
  destruct (inspect (filter (isReady g completed) (x :: rest))) as [l e].
  destruct l as [|r rs].
  - rewrite sortLoop_clause_2_equation_1. now rewrite e.
  - rewrite sortLoop_clause_2_equation_2. now rewrite e.
Qed.

(** The rule of the loop: an invariant [P] of its three variables, kept by
    every pass, gives [Q] of the result whichever way the loop ends. *)
Lemma sortLoop_rule (g : Graph)
  (P : list (list string) -> list string -> list string -> Prop)
  (Q : SortResult -> Prop) :
  (forall acc c, P acc c [] -> Q (mkSort acc None)) ->
  (forall acc c rem,
      rem <> [] -> P acc c rem -> filter (isReady g c) rem = [] ->
      Q (mkSort acc (Some rem))) ->
  (forall acc c rem r rs,
      P acc c rem -> filter (isReady g c) rem = r :: rs ->
      P (acc ++ [sortByPriority g (r :: rs)])
        (addAll (sortByPriority g (r :: rs)) c)
        (deleteAll (sortByPriority g (r :: rs)) rem)) ->
  forall acc c rem, P acc c rem -> Q (sortLoop g acc c rem).
Proof.
  intros Hdone Hstuck Hpass acc c rem.
  remember (List.length rem) as n eqn:Hn.
  revert acc c rem Hn.
  induction n as [n IH] using lt_wf_ind.
  intros acc c rem Hn HP.
  rewrite sortLoop_unfold.
  destruct rem as [|x rest]; [now apply Hdone with c |].
  destruct (filter (isReady g c) (x :: rest)) as [|r rs] eqn:Hf.
  - apply Hstuck with c; [discriminate | assumption | assumption].
  - eapply IH; [| reflexivity | now apply Hpass].
    subst n.
    assert (Hin : In r (x :: rest)).
    { apply (proj1 (filter_In (isReady g c) r (x :: rest))). rewrite Hf. now left. }
    assert (Hr : In r (sortByPriority g (r :: rs))).
    { apply sortByPriority_In. now left. }
    now apply deleteAll_lt with r.
Qed.

Lemma inWave_concat ws x : In x (List.concat ws) <-> exists i, inWave ws i x.
Proof.
  rewrite in_concat. split.
  - intros (w & Hw & Hx). apply In_nth_error in Hw as [i Hi].
    exists i, w. auto.
  - intros (i & w & Hi & Hx). exists w. split; [| assumption].
    eapply nth_error_In; eassumption.
Qed.

Lemma inWave_snoc ws w i x :
  inWave (ws ++ [w]) i x <->
  inWave ws i x \/ (i = List.length ws /\ In x w).
Proof.
  unfold inWave. split.
  - intros (w' & Hi & Hx).
    destruct (Nat.lt_ge_cases i (List.length ws)) as [Hlt | Hge].
    + rewrite nth_error_app1 in Hi by assumption. left. eauto.
    + rewrite nth_error_app2 in Hi by assumption. right.
      destruct (i - List.length ws) as [|k] eqn:Hk; simpl in Hi.
      * injection Hi as <-. split; [lia | assumption].
      * destruct k; discriminate.
  - intros [(w' & Hi & Hx) | (-> & Hx)].
    + exists w'. split; [| assumption].
      rewrite nth_error_app1; [assumption |].
      apply nth_error_Some. congruence.
    + exists w. split; [| assumption].
      rewrite nth_error_app2, Nat.sub_diag by lia. reflexivity.
Qed.

Lemma sortInv_init g : NoDup (keys g) -> sortInv g [] [] (keys g).
Proof.
  intros Hnd. constructor; simpl; try tauto.
  - constructor.
  - intros i x (w & Hi & _). destruct i; discriminate.
Qed.

Lemma isReady_spec g c x :
  isReady g c x = true <-> forall d, In d (depsOf g x) -> In d c.
Proof.
  unfold isReady. rewrite forallb_forall.
  split; intros H d Hd; [apply setHas_In | apply setHas_In]; auto.
Qed.

Lemma sortInv_pass g acc c rem r rs :
  sortInv g acc c rem ->
  filter (isReady g c) rem = r :: rs ->
  sortInv g (acc ++ [sortByPriority g (r :: rs)])
          (addAll (sortByPriority g (r :: rs)) c)
          (deleteAll (sortByPriority g (r :: rs)) rem).
Proof.
  intros [Hrem Hacc Hc Hkeys Hapart Hdeps] Hf.
  assert (Hw : forall x, In x (sortByPriority g (r :: rs)) <->
                         In x rem /\ isReady g c x = true).
  { intros x. rewrite sortByPriority_In, <- Hf. apply filter_In. }
  assert (Hndw : NoDup (sortByPriority g (r :: rs))).
  { eapply Permutation_NoDup; [apply sortByPriority_perm |].
    rewrite <- Hf. now apply NoDup_filter. }
  revert Hw Hndw. generalize (sortByPriority g (r :: rs)). intros w Hw Hndw.
  assert (Hcat : List.concat (acc ++ [w]) = List.concat acc ++ w).
  { rewrite concat_app. simpl. now rewrite app_nil_r. }
  constructor.
  - unfold deleteAll. now apply NoDup_filter.
  - rewrite Hcat. apply NoDup_app; [assumption | assumption |].
    intros x Hx Hxw. apply Hw in Hxw as [Hxr _]. now apply (Hapart x).
  - intros x. rewrite Hcat, addAll_In, in_app_iff, Hc. tauto.
  - intros x. rewrite Hcat, in_app_iff, deleteAll_In, Hkeys.
    destruct (in_dec string_dec x w) as [Hin | Hout]; [| tauto].
    pose proof (proj1 (Hw x) Hin). tauto.
  - intros x. rewrite Hcat, in_app_iff, deleteAll_In.
    intros [Hx | Hx] [Hxr Hxw]; [now apply (Hapart x) | contradiction].
  - intros i x Hix d Hd. apply inWave_snoc in Hix as [Hix | [-> Hxw]].
    + destruct (Hdeps i x Hix d Hd) as (j & Hj & Hjd).
      exists j. split; [assumption |]. apply inWave_snoc. now left.
    + apply Hw in Hxw as [_ Hready].
      rewrite isReady_spec in Hready. specialize (Hready d Hd).
      apply Hc, inWave_concat in Hready as [j Hj].
      exists j. split; [| apply inWave_snoc; now left].
      destruct Hj as (w' & Hj & _).
      apply nth_error_Some. congruence.
Qed.

(** *** The [Map] operations *)

Lemma get_set_same k n g : get k (set k n g) = Some n.
Proof.
  induction g as [|[k' n'] g IH]; simpl.
  - now rewrite String.eqb_refl.
  - destruct (String.eqb k k') eqn:E; simpl; rewrite ?String.eqb_refl, ?E; auto.
Qed.

Lemma get_set_other k k' n g : k' <> k -> get k' (set k n g) = get k' g.
Proof.
  intros Hne. induction g as [|[k0 n0] g IH]; simpl.
  - apply String.eqb_neq in Hne. now rewrite Hne.
  - destruct (String.eqb k k0) eqn:E; simpl.
    + apply String.eqb_eq in E. subst k0.
      apply String.eqb_neq in Hne. now rewrite Hne.
    + now rewrite IH.
Qed.

Lemma keys_set_In k n g x : In x (keys (set k n g)) <-> x = k \/ In x (keys g).
Proof.
  unfold keys. induction g as [|[k0 n0] g IH]; simpl.
  - intuition.
  - destruct (String.eqb k k0) eqn:E; simpl.
    + apply String.eqb_eq in E. subst k0. intuition.
    + rewrite IH. intuition.
Qed.

Lemma keys_set_NoDup k n g : NoDup (keys g) -> NoDup (keys (set k n g)).
Proof.
  unfold keys. induction g as [|[k0 n0] g IH]; simpl; intros Hnd.
  - constructor; [tauto | constructor].
  - destruct (String.eqb k k0) eqn:E; simpl.
    + apply String.eqb_eq in E. now subst k0.
    + inversion Hnd as [|? ? Hout Hnd']; subst.
      constructor; [| now apply IH].
      intros Hin. apply (keys_set_In k n g k0) in Hin as [-> | Hin].
      * now rewrite String.eqb_refl in E.
      * contradiction.
Qed.

Lemma get_Some_key k n g : get k g = Some n -> In k (keys g).
Proof.
  unfold keys. induction g as [|[k0 n0] g IH]; simpl; [discriminate |].
  destruct (String.eqb k k0) eqn:E; [| auto].
  apply String.eqb_eq in E. auto.
Qed.

Lemma key_get_Some k g : In k (keys g) -> exists n, get k g = Some n.
Proof.
  unfold keys. induction g as [|[k0 n0] g IH]; simpl; [contradiction |].
  intros Hin. destruct (String.eqb k k0) eqn:E; [eauto |].
  destruct Hin as [-> | Hin]; [| auto].
  now rewrite String.eqb_refl in E.
Qed.

(** *** What the scheduler reads of a graph *)

Lemma sched_keys g g' : sched g = sched g' -> keys g = keys g'.
Proof.
  unfold sched, keys. intros H.
  apply (f_equal (map fst)) in H. rewrite !map_map in H. exact H.
Qed.

Lemma sched_get g g' x :
  sched g = sched g' ->
  option_map (fun n => (deps n, node_priority n)) (get x g) =
  option_map (fun n => (deps n, node_priority n)) (get x g').
Proof.
  unfold sched. revert g'.
  induction g as [|[k n] g IH]; intros [|[k' n'] g'] H; simpl in *;
    try discriminate; [reflexivity |].
  injection H as -> Hd Hp Hrest.
  destruct (String.eqb x k'); simpl; [congruence | auto].
Qed.

Lemma sched_depsOf g g' x : sched g = sched g' -> depsOf g x = depsOf g' x.
Proof.
  intros H. apply (sched_get g g' x) in H. unfold depsOf.
  destruct (get x g), (get x g'); simpl in H; congruence.
Qed.

Lemma sched_priorityOf g g' x :
  sched g = sched g' -> priorityOf g x = priorityOf g' x.
Proof.
  intros H. apply (sched_get g g' x) in H. unfold priorityOf.
  destruct (get x g), (get x g'); simpl in H; congruence.
Qed.

Lemma sched_set k n n' g g' :
  deps n = deps n' -> node_priority n = node_priority n' ->
  sched g = sched g' -> sched (set k n g) = sched (set k n' g').
Proof.
  unfold sched. intros Hd Hp. revert g'.
  induction g as [|[k0 n0] g IH]; intros [|[k0' n0'] g'] H; simpl in *;
    try discriminate.
  - now rewrite Hd, Hp.
  - injection H as -> Hd0 Hp0 Hrest.
    destruct (String.eqb k k0'); simpl.
    + now rewrite Hd, Hp, Hrest.
    + rewrite Hd0, Hp0. f_equal. now apply IH.
Qed.

Lemma sched_set_same k n n' g :
  get k g = Some n ->
  deps n' = deps n -> node_priority n' = node_priority n ->
  task n' = task n ->
  sched (set k n' g) = sched g /\
  (forall x, option_map task (get x (set k n' g)) = option_map task (get x g)).
Proof.
  intros Hg Hd Hp Ht. split.
  - unfold sched. revert Hg.
    induction g as [|[k0 n0] g IH]; simpl; [discriminate |].
    destruct (String.eqb k k0) eqn:E; simpl.
    + intros [= ->]. apply String.eqb_eq in E. subst k0. now rewrite Hd, Hp.
    + intros Hg. now rewrite IH.
  - intros x. destruct (string_dec x k) as [-> | Hne].
    + rewrite get_set_same, Hg. simpl. now rewrite Ht.
    + now rewrite get_set_other.
Qed.

(** *** The graph [buildDependencyGraph] returns *)

Lemma insertTasks_keys_In ids tasks g x :
  In x (keys (insertTasks ids tasks g)) <-> In x (keys g) \/ In x (map id tasks).
Proof.
  unfold insertTasks. revert g.
  induction tasks as [|t ts IH]; intros g; simpl; [tauto |].
  rewrite IH, keys_set_In. intuition.
Qed.

Lemma insertTasks_keys_NoDup ids tasks g :
  NoDup (keys g) -> NoDup (keys (insertTasks ids tasks g)).
Proof.
  unfold insertTasks. revert g.
  induction tasks as [|t ts IH]; intros g Hnd; simpl; [assumption |].
  apply IH. now apply keys_set_NoDup.
Qed.

Lemma insertTasks_get ids tasks g x n :
  get x (insertTasks ids tasks g) = Some n ->
  get x g = Some n \/ exists t, In t tasks /\ id t = x /\ n = newNode ids t.
Proof.
  unfold insertTasks. revert g.
  induction tasks as [|t ts IH]; intros g; simpl; [auto |].
  intros H. apply IH in H as [H | (t' & Hin & Hid & Hn)].
  - destruct (string_dec x (id t)) as [-> | Hne].
    + rewrite get_set_same in H. injection H as <-.
      right. exists t. auto.
    + rewrite get_set_other in H by assumption. now left.
  - right. exists t'. auto.
Qed.

Lemma insertTasks_get_absent ids tasks g x :
  ~ In x (map id tasks) -> get x (insertTasks ids tasks g) = get x g.
Proof.
  unfold insertTasks. revert g.
  induction tasks as [|t ts IH]; intros g Hout; simpl; [reflexivity |].
  simpl in Hout. rewrite IH by tauto.
  apply get_set_other. intros ->. tauto.
Qed.

Lemma insertTasks_get_task ids tasks g t :
  NoDup (map id tasks) -> In t tasks ->
  get (id t) (insertTasks ids tasks g) = Some (newNode ids t).
Proof.
  revert g.
  induction tasks as [|t0 ts IH]; intros g Hnd Hin; [contradiction |].
  simpl in Hnd. inversion Hnd as [|? ? Hout Hnd']; subst.
  destruct Hin as [-> | Hin].
  - change (insertTasks ids (t :: ts) g)
      with (insertTasks ids ts (set (id t) (newNode ids t) g)).
    rewrite insertTasks_get_absent by assumption. apply get_set_same.
  - change (insertTasks ids (t0 :: ts) g)
      with (insertTasks ids ts (set (id t0) (newNode ids t0) g)).
    now apply IH.
Qed.

Lemma linkDependent_same x dep g :
  sched (linkDependent x g dep) = sched g /\
  (forall y, option_map task (get y (linkDependent x g dep))
             = option_map task (get y g)).
Proof.
  unfold linkDependent. destruct (get dep g) as [n|] eqn:E; [| auto].
  now apply sched_set_same with n.
Qed.

Lemma fillDependents_same entries g :
  sched (fillDependents entries g) = sched g /\
  (forall y, option_map task (get y (fillDependents entries g))
             = option_map task (get y g)).
Proof.
  unfold fillDependents. revert g.
  induction entries as [|[x ds] es IH]; intros g; simpl; [auto |].
  assert (Hin : sched (fold_left (linkDependent x) ds g) = sched g /\
                (forall y, option_map task (get y (fold_left (linkDependent x) ds g))
                           = option_map task (get y g))).
  { clear IH. revert g. induction ds as [|d ds IHd]; intros g; simpl; [auto |].
    destruct (IHd (linkDependent x g d)) as [H1 H2].
    destruct (linkDependent_same x d g) as [H3 H4].
    split; [congruence |]. intros y. now rewrite H2. }
  destruct Hin as [H1 H2].
  destruct (IH (fold_left (linkDependent x) ds g)) as [H3 H4].
  split; [congruence |]. intros y. now rewrite H4.
Qed.

(** The graph and its first loop, as far as scheduling goes. *)
Lemma build_sched tasks :
  sched (buildDependencyGraph tasks)
  = sched (insertTasks (map id tasks) tasks []).
Proof. unfold buildDependencyGraph. apply fillDependents_same. Qed.

Lemma build_keys_NoDup tasks : NoDup (keys (buildDependencyGraph tasks)).
Proof.
  rewrite (sched_keys _ _ (build_sched tasks)).
  apply insertTasks_keys_NoDup. constructor.
Qed.

Lemma build_keys_In tasks x :
  In x (keys (buildDependencyGraph tasks)) <-> In x (map id tasks).
Proof.
  rewrite (sched_keys _ _ (build_sched tasks)), insertTasks_keys_In.
  simpl. tauto.
Qed.

(** Every node of the graph comes from a task of the list. *)
Lemma build_node tasks x n :
  get x (buildDependencyGraph tasks) = Some n ->
  exists t, In t tasks /\ id t = x /\ task n = t
            /\ deps n = filter (setHas (map id tasks))
                               (parseDependencies (description t))
            /\ node_priority n = priority t.
Proof.
  intros Hg.
  pose proof (sched_get _ _ x (build_sched tasks)) as Hs.
  destruct (fillDependents_same
              (map (fun e => (fst e, deps (snd e)))
                   (insertTasks (map id tasks) tasks []))
              (insertTasks (map id tasks) tasks [])) as [_ Ht].
  specialize (Ht x). fold (buildDependencyGraph tasks) in Ht.
  rewrite Hg in Hs, Ht. simpl in Hs, Ht.
  destruct (get x (insertTasks (map id tasks) tasks [])) as [n1|] eqn:E;
    [| discriminate].
  simpl in Hs, Ht. injection Hs as Hd Hp. injection Ht as Htask.
  apply insertTasks_get in E as [E | (t & Hin & Hid & ->)]; [discriminate |].
  exists t. simpl in *. auto.
Qed.

Lemma build_get_task tasks t :
  NoDup (map id tasks) -> In t tasks ->
  exists n, get (id t) (buildDependencyGraph tasks) = Some n /\ task n = t
            /\ deps n = filter (setHas (map id tasks))
                               (parseDependencies (description t))
            /\ node_priority n = priority t.
Proof.
  intros Hnd Hin.
  destruct (key_get_Some (id t) (buildDependencyGraph tasks)) as [n Hn].
  { apply build_keys_In, in_map, Hin. }
  exists n. split; [assumption |].
  destruct (build_node tasks _ n Hn) as (t' & Hin' & Hid & Ht & Hd & Hp).
  assert (t' = t) as ->.
  { clear - Hnd Hin Hin' Hid. induction tasks as [|t0 ts IH]; [contradiction |].
    simpl in Hnd. inversion Hnd as [|? ? Hout Hnd']; subst.
    destruct Hin as [-> | Hin], Hin' as [-> | Hin']; auto.
    - exfalso. apply Hout. rewrite <- Hid. now apply in_map.
    - exfalso. apply Hout. rewrite Hid. now apply in_map. }
  auto.
Qed.

(** No dangling reference survives: every dep is a key of the graph. *)
Lemma build_deps_closed tasks x d :
  In d (depsOf (buildDependencyGraph tasks) x) ->
  In d (keys (buildDependencyGraph tasks)).
Proof.
  unfold depsOf. destruct (get x (buildDependencyGraph tasks)) as [n|] eqn:E;
    [| contradiction].
  destruct (build_node tasks x n E) as (t & _ & _ & _ & Hd & _).
  rewrite Hd, filter_In, setHas_In. intros [_ H]. now apply build_keys_In.
Qed.

(** *** Scheduling reads only ids, deps and priorities *)

Lemma sortByPriority_ext g g' l :
  (forall x, priorityOf g x = priorityOf g' x) ->
  sortByPriority g l = sortByPriority g' l.
Proof.
  intros Hp. induction l as [|x l IH]; simpl; [reflexivity |].
  rewrite IH. generalize (sortByPriority g' l). intros s.
  induction s as [|y s IHs]; simpl; [reflexivity |].
  now rewrite !Hp, IHs.
Qed.

Lemma sortLoop_ext g g' :
  (forall x, depsOf g x = depsOf g' x) ->
  (forall x, priorityOf g x = priorityOf g' x) ->
  forall acc c rem, sortLoop g acc c rem = sortLoop g' acc c rem.
Proof.
  intros Hd Hp acc c rem.
  remember (List.length rem) as n eqn:Hn. revert acc c rem Hn.
  induction n as [n IH] using lt_wf_ind. intros acc c rem Hn.
  rewrite (sortLoop_unfold g), (sortLoop_unfold g').
  destruct rem as [|x rest]; [reflexivity |].
  assert (Hf : filter (isReady g c) (x :: rest) = filter (isReady g' c) (x :: rest)).
  { apply filter_ext. intros y. unfold isReady. now rewrite Hd. }
  rewrite <- Hf.
  destruct (filter (isReady g c) (x :: rest)) as [|r rs] eqn:E; [reflexivity |].
  rewrite <- (sortByPriority_ext g g') by assumption.
  eapply IH; [| reflexivity]. subst n.
  apply deleteAll_lt with r.
  - apply (proj1 (filter_In (isReady g c) r (x :: rest))). rewrite E. now left.
  - apply sortByPriority_In. now left.
Qed.

Lemma topologicalSort_sched g g' :
  sched g = sched g' -> topologicalSort g = topologicalSort g'.
Proof.
  intros H. unfold topologicalSort. rewrite (sched_keys g g' H).
  apply sortLoop_ext; intros x; [now apply sched_depsOf | now apply sched_priorityOf].
Qed.

Lemma insertTasks_sched ids ts ts' g g' :
  Forall2 (sameButDangling ids) ts ts' -> sched g = sched g' ->
  sched (insertTasks ids ts g) = sched (insertTasks ids ts' g').
Proof.
  intros HF. revert g g'.
  induction HF as [|t t' ts ts' (Hid & Hp & Hd) _ IH]; intros g g' Hs;
    [exact Hs |].
  unfold insertTasks in *. simpl. apply IH. rewrite Hid.
  apply sched_set; simpl; assumption.
Qed.

Lemma sameButDangling_ids ids ts ts' :
  Forall2 (sameButDangling ids) ts ts' -> map id ts = map id ts'.
Proof.
  induction 1 as [|t t' ts ts' (Hid & _) _ IH]; simpl; congruence.
Qed.

(** *** Dependency cycles *)

Lemma edge_key g a b : edge g a b -> In a (keys g).
Proof.
  unfold edge, depsOf. destruct (get a g) as [n|] eqn:E; [| contradiction].
  intros _. eapply get_Some_key, E.
Qed.

Lemma onCycle_next g a : onCycle g a -> exists b, edge g a b /\ onCycle g b.
Proof.
  intros H. apply clos_trans_t1n in H.
  inversion H as [b Hab | b c Hab Hba]; subst.
  - exists a. split; [assumption | now apply t_step].
  - exists b. split; [assumption |].
    apply clos_t1n_trans in Hba.
    eapply t_trans; [exact Hba | now apply t_step].
Qed.

Lemma onCycle_key g a : onCycle g a -> In a (keys g).
Proof.
  intros H. destruct (onCycle_next g a H) as (b & Hab & _).
  eapply edge_key, Hab.
Qed.

Lemma Sorted_suffix (R : string -> string -> Prop) l1 l :
  Sorted R (l1 ++ l) -> Sorted R l.
Proof.
  induction l1 as [|x l1 IH]; simpl; [auto |].
  intros H. apply Sorted_inv in H as [H _]. auto.
Qed.

Lemma Sorted_path (R : string -> string -> Prop) l2 a b l3 :
  Sorted R (a :: l2 ++ b :: l3) -> clos_trans string R a b.
Proof.
  revert a. induction l2 as [|c l2 IH]; intros a H; simpl in H;
    apply Sorted_inv in H as [Hs Hh]; inversion Hh; subst.
  - now apply t_step.
  - eapply t_trans; [apply t_step; eassumption | now apply IH].
Qed.

(** A walk of any length inside a set where every member has a successor. *)
Lemma walk_exists g rem :
  (forall x, In x rem -> exists d, edge g x d /\ In d rem) ->
  forall n a, In a rem ->
  exists l, List.length l = n /\ incl (a :: l) rem /\ Sorted (edge g) (a :: l).
Proof.
  intros Hnext. induction n as [|n IH]; intros a Ha.
  - exists []. split; [reflexivity |]. split.
    + intros x [<- | []]. assumption.
    + repeat constructor.
  - destruct (Hnext a Ha) as (d & Had & Hd).
    destruct (IH d Hd) as (l & Hlen & Hincl & Hsorted).
    exists (d :: l). split; [simpl; congruence |]. split.
    + intros x [<- | Hx]; [assumption | now apply Hincl].
    + constructor; [assumption | now constructor].
Qed.

(** Pigeonhole: such a set, if not empty, holds a cycle. *)
Lemma stuck_cycle g rem :
  rem <> [] ->
  (forall x, In x rem -> exists d, edge g x d /\ In d rem) ->
  exists a, onCycle g a.
Proof.
  intros Hne Hnext. destruct rem as [|a0 rest]; [congruence |].
  destruct (walk_exists g (a0 :: rest) Hnext (List.length (a0 :: rest)) a0)
    as (l & Hlen & Hincl & Hsorted); [now left |].
  assert (Hdup : ~ NoDup (a0 :: l)).
  { intros Hnd. apply NoDup_incl_length in Hincl; [| assumption].
    simpl in Hincl, Hlen. lia. }
  apply not_NoDup in Hdup as (a & l1 & l2 & l3 & Heq).
  - exists a. rewrite Heq in Hsorted.
    apply Sorted_suffix in Hsorted. eapply Sorted_path, Hsorted.
  - intros x y. destruct (string_dec x y); [left | right]; assumption.
Qed.

Lemma forallb_false {A} (f : A -> bool) l :
  forallb f l = false -> exists x, In x l /\ f x = false.
Proof.
  induction l as [|x l IH]; simpl; [discriminate |].
  destruct (f x) eqn:E; simpl.
  - intros H. destruct (IH H) as (y & Hy & Hfy). eauto.
  - intros _. eauto.
Qed.

(** When the loop finds nothing ready although ids remain, the remaining
    ids of a graph without dangling deps hold a cycle. *)
Lemma no_ready_cycle g acc c rem :
  (forall x d, In d (depsOf g x) -> In d (keys g)) ->
  sortInv g acc c rem -> rem <> [] ->
  filter (isReady g c) rem = [] ->
  exists a, onCycle g a.
Proof.
  intros Hclosed Hinv Hne Hf. apply (stuck_cycle g rem Hne).
  intros x Hx.
  assert (Hnr : isReady g c x = false).
  { destruct (isReady g c x) eqn:E; [| reflexivity].
    assert (Hin : In x (filter (isReady g c) rem)) by (apply filter_In; auto).
    rewrite Hf in Hin. contradiction. }
  apply forallb_false in Hnr as (d & Hd & Hdc).
  apply setHas_false in Hdc.
  exists d. split; [exact Hd |].
  apply Hclosed, (inv_keys _ _ _ _ Hinv) in Hd as [Hd | Hd]; [| assumption].
  apply (inv_completed _ _ _ _ Hinv) in Hd. contradiction.
Qed.

(** *** What [topologicalSort] returns, for any graph with distinct keys *)

Lemma topologicalSort_spec g :
  NoDup (keys g) ->
  NoDup (List.concat (waves (topologicalSort g))) /\
  respectsDeps g (waves (topologicalSort g)) /\
  match reported (topologicalSort g) with
  | None =>
      forall x, In x (keys g) <-> In x (List.concat (waves (topologicalSort g)))
  | Some stuck =>
      stuck <> [] /\
      (forall x, In x (keys g) <->
                 In x (List.concat (waves (topologicalSort g))) \/ In x stuck) /\
      (forall x, In x stuck -> ~ In x (List.concat (waves (topologicalSort g)))) /\
      (forall x, In x stuck ->
                 exists d, In d (depsOf g x) /\
                           ~ In d (List.concat (waves (topologicalSort g))))
  end.
Proof.
  intros Hnd. unfold topologicalSort.
  apply (sortLoop_rule g (sortInv g)
           (fun r =>
              NoDup (List.concat (waves r)) /\ respectsDeps g (waves r) /\
              match reported r with
              | None => forall x, In x (keys g) <-> In x (List.concat (waves r))
              | Some stuck =>
                  stuck <> [] /\
                  (forall x, In x (keys g) <->
                             In x (List.concat (waves r)) \/ In x stuck) /\
                  (forall x, In x stuck -> ~ In x (List.concat (waves r))) /\
                  (forall x, In x stuck ->
                             exists d, In d (depsOf g x) /\
                                       ~ In d (List.concat (waves r)))
              end)).
  - intros acc c [_ Hacc _ Hkeys _ Hdeps]. simpl.
    repeat split; try assumption; intros H;
      [apply Hkeys in H; simpl in H | apply Hkeys]; tauto.
  - intros acc c rem Hne [Hrem Hacc Hc Hkeys Hapart Hdeps] Hf. simpl.
    repeat split; try assumption; try apply Hkeys.
    + intros x Hx Hxa. now apply (Hapart x).
    + intros x Hx.
      assert (Hnr : isReady g c x = false).
      { destruct (isReady g c x) eqn:E; [| reflexivity].
        assert (Hin : In x (filter (isReady g c) rem)) by (apply filter_In; auto).
        rewrite Hf in Hin. contradiction. }
      apply forallb_false in Hnr as (d & Hd & Hdc).
      apply setHas_false in Hdc. exists d. split; [assumption |].
      now rewrite <- Hc.
  - intros acc c rem r rs. apply sortInv_pass.
  - now apply sortInv_init.
Qed.

(** No member of a cycle is ever listed in waves that respect the deps. *)
Lemma waves_no_cycle g ws :
  respectsDeps g ws -> forall i a, inWave ws i a -> ~ onCycle g a.
Proof.
  intros Hdeps i. induction i as [i IH] using lt_wf_ind.
  intros a Hia Hcyc.
  destruct (onCycle_next g a Hcyc) as (b & Hab & Hb).
  destruct (Hdeps i a Hia b Hab) as (j & Hj & Hjb).
  exact (IH j Hj b Hjb Hb).
Qed.

(** The report is exact: without a report the graph has no cycle. *)
Lemma reported_None_acyclic g :
  NoDup (keys g) -> reported (topologicalSort g) = None -> acyclic g.
Proof.
  intros Hnd Hrep a Hcyc.
  destruct (topologicalSort_spec g Hnd) as (_ & Hdeps & Hcover).
  rewrite Hrep in Hcover.
  pose proof (onCycle_key g a Hcyc) as Ha.
  apply Hcover, inWave_concat in Ha. destruct Ha as [i Hi].
  exact (waves_no_cycle g _ Hdeps i a Hi Hcyc).
Qed.

Lemma acyclic_reported_None g :
  NoDup (keys g) -> (forall x d, In d (depsOf g x) -> In d (keys g)) ->
  acyclic g -> reported (topologicalSort g) = None.
Proof.
  intros Hnd Hclosed Hacyc.
  destruct (topologicalSort_spec g Hnd) as (_ & _ & Hrep).
  destruct (reported (topologicalSort g)) as [stuck|]; [| reflexivity].
  destruct Hrep as (Hne & Hkeys & Hapart & Hblocked).
  destruct (stuck_cycle g stuck Hne) as [a Ha]; [| now apply Hacyc in Ha].
  intros x Hx. destruct (Hblocked x Hx) as (d & Hd & Hout).
  exists d. split; [exact Hd |].
  apply Hclosed, Hkeys in Hd. tauto.
Qed.

Lemma planWaves_ids g m i ws :
  map (fun pw => map pt_id (wave_tasks pw)) (planWaves g m i ws) = ws.
Proof.
  revert i. induction ws as [|w ws IH]; intros i; simpl; [reflexivity |].
  rewrite IH, map_map. f_equal.
  rewrite <- (map_id w) at 2. apply map_ext.
  intros x. unfold planTask. now destruct (get x g).
Qed.

Lemma insertByPriority_sorted g x l :
  StronglySorted (priorityLe g) l ->
  StronglySorted (priorityLe g) (insertByPriority g x l).
Proof.
  induction 1 as [|y l Hl IH Hy]; simpl.
  - repeat constructor.
  - destruct (_ <=? 0)%Z eqn:E.
    + apply Z.leb_le in E.
      constructor; [now constructor |].
      constructor; [unfold priorityLe; lia |].
      eapply Forall_impl; [| exact Hy]. unfold priorityLe. intros z. lia.
    + apply Z.leb_gt in E. constructor; [assumption |].
      apply Forall_forall. intros z Hz.
      apply (Permutation_in _ (Permutation_sym (insertByPriority_perm g x l)))
        in Hz as [<- | Hz].
      * unfold priorityLe. lia.
      * rewrite Forall_forall in Hy. now apply Hy.
Qed.

Lemma sortByPriority_sorted g l : StronglySorted (priorityLe g) (sortByPriority g l).
Proof.
  induction l as [|x l IH]; simpl; [constructor | now apply insertByPriority_sorted].
Qed.

(** *** The properties of the specification *)

(** C2 (topological correctness). For an acyclic graph built by
    [buildDependencyGraph], [topologicalSort] reports nothing, every id of
    wave [i] has each of its deps in a wave of index below [i], and the
    concatenation of the waves lists every task id of the graph exactly
    once. *)
Theorem topological_correctness (todo : list TaskRecord) :
  acyclic (buildDependencyGraph todo) ->
  respectsDeps (buildDependencyGraph todo)
               (waves (topologicalSort (buildDependencyGraph todo))) /\
  NoDup (List.concat (waves (topologicalSort (buildDependencyGraph todo)))) /\
  (forall x, In x (keys (buildDependencyGraph todo)) <->
             In x (List.concat (waves (topologicalSort (buildDependencyGraph todo))))) /\
  (forall x, In x (map id todo) <->
             In x (List.concat (waves (topologicalSort (buildDependencyGraph todo))))) /\
  Permutation (keys (buildDependencyGraph todo))
              (List.concat (waves (topologicalSort (buildDependencyGraph todo)))) /\
  reported (topologicalSort (buildDependencyGraph todo)) = None.
Proof.
  intros Hacyc. set (g := buildDependencyGraph todo) in *.
  pose proof (build_keys_NoDup todo) as Hnd. fold g in Hnd.
  assert (Hrep : reported (topologicalSort g) = None).
  { apply acyclic_reported_None; try assumption. apply build_deps_closed. }
  destruct (topologicalSort_spec g Hnd) as (Hnodup & Hdeps & Hcover).
  rewrite Hrep in Hcover.
  repeat split; try assumption; try apply Hcover.
  - intros Hx. apply Hcover, build_keys_In, Hx.
  - intros Hx. apply build_keys_In, Hcover, Hx.
  - now apply NoDup_Permutation.
Qed.

(** The scenario of the specification: T1 and T2 free, T3 after T1. *)
Lemma topological_correctness_witness :
  let todo := [mkTask "T1" "first" None 1; mkTask "T2" "second" (Some EmptyString) 0;
               mkTask "T3" "third" (Some "Blocked by: [T1]") 0] in
  acyclic (buildDependencyGraph todo) /\
  waves (topologicalSort (buildDependencyGraph todo)) = [["T2"; "T1"]; ["T3"]] /\
  respectsDeps (buildDependencyGraph todo)
               (waves (topologicalSort (buildDependencyGraph todo))).
Proof.
  intros todo.
  assert (Hacyc : acyclic (buildDependencyGraph todo)).
  { apply reported_None_acyclic; [apply build_keys_NoDup | vm_compute; reflexivity]. }
  split; [exact Hacyc |]. split; [vm_compute; reflexivity |].
  exact (proj1 (topological_correctness todo Hacyc)).
Defined.

(** C4 (cycle detection). When the task set holds a dependency cycle,
    [topologicalSort] (a total function: the loop ends) reports the stuck
    ids, which are exactly the ids of the graph that no wave lists; every
    member of a cycle is among them and in no wave; the waves returned
    still respect every dependency, so no cycle is broken by an order; and
    the plan [main] goes on to build lists the returned waves and nothing
    else. *)
Theorem cycle_detection (project : Project) (todo : list TaskRecord)
  (maxPar : Z) (a : string) :
  onCycle (buildDependencyGraph todo) a ->
  exists stuck,
    reported (topologicalSort (buildDependencyGraph todo)) = Some stuck /\
    In a stuck /\
    (forall x, In x stuck <->
               In x (keys (buildDependencyGraph todo)) /\
               ~ In x (List.concat (waves (topologicalSort (buildDependencyGraph todo))))) /\
    (forall x, onCycle (buildDependencyGraph todo) x ->
               In x stuck /\
               forall i, ~ inWave (waves (topologicalSort (buildDependencyGraph todo))) i x) /\
    respectsDeps (buildDependencyGraph todo)
                 (waves (topologicalSort (buildDependencyGraph todo))) /\
    snd (planTasks project todo maxPar) = Some stuck /\
    map (fun pw => map pt_id (wave_tasks pw))
        (plan_waves (fst (planTasks project todo maxPar)))
    = waves (topologicalSort (buildDependencyGraph todo)).
Proof.
  intros Hcyc. unfold planTasks, generatePlan. cbn [fst snd plan_waves].
  set (g := buildDependencyGraph todo) in *.
  pose proof (build_keys_NoDup todo) as Hnd. fold g in Hnd.
  destruct (topologicalSort_spec g Hnd) as (Hnodup & Hdeps & Hrep).
  assert (Hout : forall x, onCycle g x ->
                           forall i, ~ inWave (waves (topologicalSort g)) i x).
  { intros x Hx i Hi. exact (waves_no_cycle g _ Hdeps i x Hi Hx). }
  assert (Hnot : forall x, onCycle g x ->
                           ~ In x (List.concat (waves (topologicalSort g)))).
  { intros x Hx Hin. apply inWave_concat in Hin as [i Hi]. exact (Hout x Hx i Hi). }
  destruct (reported (topologicalSort g)) as [stuck|].
  - destruct Hrep as (Hne & Hkeys & Hapart & _).
    assert (Hin : forall x, onCycle g x -> In x stuck).
    { intros x Hx. pose proof (onCycle_key g x Hx) as Hk.
      apply Hkeys in Hk as [Hk | Hk]; [now apply Hnot in Hk | assumption]. }
    exists stuck.
    split; [reflexivity |]. split; [now apply Hin |].
    split.
    { intros x. split.
      - intros Hx. split; [apply Hkeys; now right | now apply Hapart].
      - intros [Hk Hw]. apply Hkeys in Hk. tauto. }
    split; [intros x Hx; split; [now apply Hin | now apply Hout] |].
    split; [assumption |]. split; [reflexivity | apply planWaves_ids].
  - exfalso. apply (Hnot a Hcyc), Hrep, onCycle_key, Hcyc.
Qed.

(** A depends on B, B depends on A; C waits for A; D is free. *)
Lemma cycle_detection_witness :
  let todo := [mkTask "A" "a" (Some "depends on [B]") 0;
               mkTask "B" "b" (Some "depends on [A]") 0;
               mkTask "C" "c" (Some "after [A]") 1;
               mkTask "D" "d" None 2] in
  onCycle (buildDependencyGraph todo) "A" /\
  topologicalSort (buildDependencyGraph todo)
  = mkSort [["D"]] (Some ["A"; "B"; "C"]) /\
  exists stuck,
    reported (topologicalSort (buildDependencyGraph todo)) = Some stuck /\
    In "A" stuck.
Proof.
  intros todo.
  assert (Hcyc : onCycle (buildDependencyGraph todo) "A").
  { apply t_trans with "B"; apply t_step; vm_compute; left; reflexivity. }
  split; [exact Hcyc |]. split; [vm_compute; reflexivity |].
  destruct (cycle_detection (mkProject "p" "demo" "/srv/demo") todo 3 "A" Hcyc)
    as (stuck & Hrep & Hin & _).
  exists stuck. split; assumption.
Defined.

(** C5 (priority ordering). Every wave [topologicalSort] produces lists
    its ids by ascending priority of their graph nodes; the wave of
    X (priority 2), Y (priority 0), Z (priority 1) comes out as Y, Z, X. *)
Theorem priority_ordering :
  (forall g : Graph,
      Forall (StronglySorted (priorityLe g)) (waves (topologicalSort g))) /\
  waves (topologicalSort
           (buildDependencyGraph
              [mkTask "X" "x" None 2; mkTask "Y" "y" None 0; mkTask "Z" "z" None 1]))
  = [["Y"; "Z"; "X"]].
Proof.
  split; [| vm_compute; reflexivity].
  intros g. unfold topologicalSort.
  apply (sortLoop_rule g
           (fun acc _ _ => Forall (StronglySorted (priorityLe g)) acc)
           (fun r => Forall (StronglySorted (priorityLe g)) (waves r))).
  - intros acc c H. exact H.
  - intros acc c rem _ H _. exact H.
  - intros acc c rem r rs H _. apply Forall_app. split; [exact H |].
    constructor; [apply sortByPriority_sorted | constructor].
  - constructor.
Qed.

(** C7 (dangling references). In the graph of [buildDependencyGraph] the
    deps of a node are the parsed references that name a task of the set,
    so a reference to an unknown id is not among them; the schedule is the
    one of any task list that differs only in such references; and a task
    of the graph whose references are all dangling is listed in wave 0.
    (The graph keeps one task per id: every task of a list with pairwise
    distinct ids.) *)
Theorem dangling_reference_tolerance (todo : list TaskRecord) :
  (forall x n,
      get x (buildDependencyGraph todo) = Some n ->
      deps n = filter (setHas (map id todo))
                      (parseDependencies (description (task n))) /\
      (forall d, In d (deps n) -> In d (map id todo)) /\
      (forall d, ~ In d (map id todo) -> ~ In d (deps n))) /\
  (forall todo',
      Forall2 (sameButDangling (map id todo)) todo todo' ->
      topologicalSort (buildDependencyGraph todo')
      = topologicalSort (buildDependencyGraph todo)) /\
  (forall x n,
      get x (buildDependencyGraph todo) = Some n ->
      (forall d, In d (parseDependencies (description (task n))) ->
                 ~ In d (map id todo)) ->
      depsOf (buildDependencyGraph todo) x = [] /\
      inWave (waves (topologicalSort (buildDependencyGraph todo))) 0 x) /\
  (forall t,
      NoDup (map id todo) -> In t todo ->
      exists n, get (id t) (buildDependencyGraph todo) = Some n /\ task n = t).
Proof.
  split; [| split; [| split]].
  - intros x n Hg.
    destruct (build_node todo x n Hg) as (t & _ & _ & Ht & Hd & _).
    subst t. split; [exact Hd |].
    assert (Hin : forall d, In d (deps n) -> In d (map id todo)).
    { intros d. rewrite Hd, filter_In, setHas_In. tauto. }
    split; [exact Hin |]. intros d Hout Hd'. exact (Hout (Hin d Hd')).
  - intros todo' HF. symmetry. apply topologicalSort_sched.
    rewrite !build_sched, <- (sameButDangling_ids _ _ _ HF).
    now apply insertTasks_sched.
  - intros x n Hg Hdangling.
    destruct (build_node todo x n Hg) as (t & _ & _ & Ht & Hd & _). subst t.
    assert (Hnone : depsOf (buildDependencyGraph todo) x = []).
    { unfold depsOf. rewrite Hg, Hd.
      destruct (filter _ _) as [|d l] eqn:E; [reflexivity |].
      assert (Hd' : In d (filter (setHas (map id todo))
                                (parseDependencies (description (task n)))))
        by (rewrite E; now left).
      apply filter_In in Hd' as [Hp Hs]. apply setHas_In in Hs.
      now apply Hdangling in Hp. }
    split; [exact Hnone |].
    set (g := buildDependencyGraph todo) in *.
    unfold topologicalSort.
    apply (sortLoop_rule g
             (fun acc c rem => (acc = [] /\ In x rem) \/ inWave acc 0 x)
             (fun r => inWave (waves r) 0 x)).
    + intros acc c [[_ []] | H]. exact H.
    + intros acc c rem _ [[_ Hrem] | H] Hf; [| exact H].
      assert (Hready : In x (filter (isReady g c) rem)).
      { apply filter_In. split; [exact Hrem |].
        unfold isReady. now rewrite Hnone. }
      rewrite Hf in Hready. contradiction.
    + intros acc c rem r rs [[-> Hrem] | H] Hf; right.
      * exists (sortByPriority g (r :: rs)). split; [reflexivity |].
        apply sortByPriority_In. rewrite <- Hf. apply filter_In.
        split; [exact Hrem |]. unfold isReady. now rewrite Hnone.
      * apply inWave_snoc. now left.
    + left. split; [reflexivity |]. eapply get_Some_key, Hg.
  - intros t Hnd Hin.
    destruct (build_get_task todo t Hnd Hin) as (n & Hg & Ht & _). eauto.
Qed.

(** U only names ids that are not tasks of the set; V waits for U. *)
Lemma dangling_reference_tolerance_witness :
  let u := mkTask "U" "u" (Some "blocked by [gone], after: [old9]") 3 in
  let todo := [mkTask "V" "v" (Some "requires [U]") 0; u] in
  parseDependencies (description u) = ["gone"; "old9"] /\
  depsOf (buildDependencyGraph todo) "U" = [] /\
  inWave (waves (topologicalSort (buildDependencyGraph todo))) 0 "U" /\
  waves (topologicalSort (buildDependencyGraph todo)) = [["U"]; ["V"]].
Proof.
  intros u todo. split; [vm_compute; reflexivity |].
  destruct (dangling_reference_tolerance todo) as (_ & _ & Hwave & Hkept).
  assert (Hnd : NoDup (map id todo)).
  { vm_compute. repeat constructor; simpl; intuition discriminate. }
  destruct (Hkept u Hnd (or_intror (or_introl eq_refl))) as (n & Hg & Ht).
  destruct (Hwave "U" n Hg) as [Hdeps Hin].
  { rewrite Ht. intros d Hd. vm_compute in Hd. vm_compute.
    intuition (subst; discriminate). }
  split; [exact Hdeps |]. split; [exact Hin | vm_compute; reflexivity].
Defined.

End PlannerFacts.

(* ===================================================================== *)
(** * Properties of the runner                                           *)
(* ===================================================================== *)

Module RunnerFacts.
Import Runner.

(** ** The pool, whatever the handler *)

Section PoolFacts.

Context {T R Sh : Type}.
Variable N : Z.
Variable handler : nat -> T -> Sh -> option (R * Sh).

Let pool : Type := Pool T R Sh.

Lemma exec_app (s1 s2 : list Event) (p : pool) :
  exec N handler (s1 ++ s2) p =
  match exec N handler s1 p with
  | Some p' => exec N handler s2 p'
  | None => None
  end.
Proof.
  revert p. induction s1 as [|e s1 IH]; intros p; simpl; [reflexivity |].
  destruct (step N handler p e); [apply IH | reflexivity].
Qed.

(** A property kept by every step holds after every schedule. *)
Lemma exec_invariant (P : pool -> Prop) :
  (forall p e p', P p -> step N handler p e = Some p' -> P p') ->
  forall schedule p p', P p -> exec N handler schedule p = Some p' -> P p'.
Proof.
  intros Hstep. induction schedule as [|e schedule IH]; intros p p' HP; simpl.
  - intros [= <-]. exact HP.
  - destruct (step N handler p e) as [p1|] eqn:E; [| discriminate].
    apply IH. eapply Hstep; eassumption.
Qed.

Lemma executingSize_snoc (ps : list (T * Phase R)) (t : T) :
  executingSize (ps ++ [(t, Working)]) = S (executingSize ps).
Proof.
  unfold executingSize. rewrite filter_app, length_app. simpl. lia.
Qed.

Lemma executingSize_finish (ps : list (T * Phase R)) k t r :
  nth_error ps k = Some (t, Working) ->
  executingSize (setNth k (t, Done r) ps) = executingSize ps.
Proof.
  unfold executingSize. revert k.
  induction ps as [|[t0 ph] ps IH]; intros [|k]; simpl; try discriminate.
  - intros [= -> ->]. reflexivity.
  - intros H. specialize (IH k H). cbn [filter].
    destruct (negb (isSettled (t0, ph))); cbn [List.length]; congruence.
Qed.

Lemma executingSize_settle (ps : list (T * Phase R)) k t r :
  nth_error ps k = Some (t, Done r) ->
  S (executingSize (setNth k (t, Settled r) ps)) = executingSize ps.
Proof.
  unfold executingSize. revert k.
  induction ps as [|[t0 ph] ps IH]; intros [|k]; simpl; try discriminate.
  - intros [= -> ->]. reflexivity.
  - intros H. specialize (IH k H). cbn [filter].
    destruct (negb (isSettled (t0, ph))); cbn [List.length]; congruence.
Qed.

Lemma withinLimit_step (p : pool) e p' :
  withinLimit N p -> step N handler p e = Some p' -> withinLimit N p'.
Proof.
  intros [Hle Hlt]. destruct e as [|k|k]; cbn [step].
  - destruct (awaiting p) eqn:Ha; [discriminate |].
    destruct (queue p) as [|t rest]; [discriminate |].
    intros [= <-]. unfold withinLimit. cbn [promises awaiting].
    rewrite executingSize_snoc. specialize (Hlt eq_refl).
    split; [lia |]. intros Hw. apply Z.leb_gt in Hw. lia.
  - destruct (nth_error (promises p) k) as [[t [| |]]|] eqn:E; try discriminate.
    destruct (handler k t (shared p)) as [[r s']|]; [| discriminate].
    intros [= <-]. unfold withinLimit. cbn [promises awaiting].
    rewrite (executingSize_finish _ _ _ _ E). auto.
  - destruct (nth_error (promises p) k) as [[t [|r|]]|] eqn:E; try discriminate.
    intros [= <-]. unfold withinLimit. cbn [promises awaiting].
    pose proof (executingSize_settle _ _ _ _ E). lia.
Qed.

Lemma nth_error_snoc {A} (l : list A) (a : A) :
  nth_error (l ++ [a]) (List.length l) = Some a.
Proof. rewrite nth_error_app2, Nat.sub_diag by lia. reflexivity. Qed.

Lemma setNth_snoc {A} (l : list A) (a b : A) :
  setNth (List.length l) b (l ++ [a]) = l ++ [b].
Proof. induction l as [|x l IH]; simpl; congruence. Qed.

(** When no handler is ever stuck, the one-at-a-time interleaving drives
    the pool to the end, whatever the limit. *)
Lemma sequential_drains (tasks : list T) :
  (forall k t s, nth_error tasks k = Some t -> handler k t s <> None) ->
  forall (q : list T) (ps : list (T * Phase R)) (s : Sh),
    map fst ps ++ q = tasks ->
    forallb isSettled ps = true ->
    exists p',
      exec N handler (sequential (List.length ps) (List.length q))
           (mkPool q ps false s) = Some p' /\
      drained p' = true.
Proof.
  intros Hlive. induction q as [|t q IH]; intros ps s Horder Hall.
  - exists (mkPool [] ps false s). split; [reflexivity | exact Hall].
  - cbn [List.length sequential exec step awaiting queue promises shared].
    rewrite nth_error_snoc.
    destruct (handler (List.length ps) t s) as [[r s']|] eqn:Hh.
    + cbn [exec step awaiting queue promises shared].
      rewrite setNth_snoc, nth_error_snoc, setNth_snoc.
      replace (S (List.length ps)) with (List.length (ps ++ [(t, Settled r)]))
        by (rewrite length_app; simpl; lia).
      apply IH.
      * rewrite map_app, <- app_assoc. exact Horder.
      * rewrite forallb_app, Hall. reflexivity.
    + exfalso. apply (Hlive (List.length ps) t s); [| exact Hh].
      rewrite <- Horder, nth_error_app2, length_map, Nat.sub_diag
        by (rewrite length_map; lia).
      reflexivity.
Qed.

End PoolFacts.

(** ** The pool of [run] *)

Section RunFacts.

Variables (runner : BatchRunner) (h : TaskHandlers) (w : World) (dir : string).
Variables (from : Progress) (todo : list Item).

Let itemH := itemHandler runner h w dir.
Let poolLimit := concurrency runner.

Lemma finished_snoc {T R} (ps : list (T * Phase R)) (t : T) :
  finished (ps ++ [(t, Working)]) = finished ps.
Proof.
  induction ps as [|[t0 [|r|r]] ps IH]; simpl; congruence.
Qed.

Lemma nth_error_setNth {A} (l : list A) k k' (a : A) :
  k < List.length l ->
  nth_error (setNth k a l) k' = if Nat.eqb k k' then Some a else nth_error l k'.
Proof.
  revert k k'. induction l as [|x l IH]; intros [|k] [|k'] Hk; simpl in *;
    try lia; try reflexivity.
  apply IH. lia.
Qed.

Lemma map_fst_setNth {A B} (l : list (A * B)) k (a : A) (b b' : B) :
  nth_error l k = Some (a, b) -> map fst (setNth k (a, b') l) = map fst l.
Proof.
  revert k. induction l as [|x l IH]; intros [|k]; simpl; try discriminate.
  - intros [= ->]. reflexivity.
  - intros H. now rewrite IH.
Qed.

Lemma finished_finish {T R} (ps : list (T * Phase R)) k t r :
  nth_error ps k = Some (t, Working) ->
  Permutation ((t, r) :: finished ps) (finished (setNth k (t, Done r) ps)).
Proof.
  revert k. induction ps as [|[t0 ph] ps IH]; intros [|k]; simpl; try discriminate.
  - intros [= -> ->]. reflexivity.
  - intros H. specialize (IH k H).
    destruct ph; [assumption | |]; rewrite perm_swap; now constructor.
Qed.

Lemma finished_settle {T R} (ps : list (T * Phase R)) k t r :
  nth_error ps k = Some (t, Done r) ->
  finished (setNth k (t, Settled r) ps) = finished ps.
Proof.
  revert k. induction ps as [|[t0 ph] ps IH]; intros [|k]; simpl; try discriminate.
  - intros [= -> ->]. reflexivity.
  - intros H. rewrite (IH k H). reflexivity.
Qed.

Lemma tracks_start (st : RunState) :
  progress st = from -> tracks runner h w dir from todo (start todo st).
Proof.
  intros <-. constructor; simpl; try reflexivity.
  - intros [|k] t r [H | H]; discriminate.
  - exists []. simpl. now rewrite !app_nil_r.
Qed.

Lemma tracks_step p e p' :
  tracks runner h w dir from todo p -> step poolLimit itemH p e = Some p' ->
  tracks runner h w dir from todo p'.
Proof.
  intros [Hitems Hstatus Horder Hrecords (done & Hperm & Hcompleted & Hresults)].
  destruct e as [|k|k]; cbn [step].
  - destruct (awaiting p); [discriminate |].
    destruct (queue p) as [|t rest] eqn:Hq; [discriminate |].
    intros [= <-]. constructor; cbn [shared promises queue]; try assumption.
    + rewrite map_app, <- app_assoc. exact Horder.
    + intros k t' r Hk. apply (Hrecords k t' r).
      destruct (Nat.lt_ge_cases k (List.length (promises p))) as [Hlt | Hge].
      * now rewrite !nth_error_app1 in Hk by assumption.
      * rewrite !nth_error_app2 in Hk by assumption.
        destruct (k - List.length (promises p)) as [|[|j]];
          simpl in Hk; destruct Hk; discriminate.
    + exists done. rewrite finished_snoc. auto.
  - destruct (nth_error (promises p) k) as [[t [| |]]|] eqn:E; try discriminate.
    unfold itemH, itemHandler.
    destruct (outcome runner h w dir k t) as [r|] eqn:Hout; [| discriminate].
    intros [= <-].
    assert (Hk : k < List.length (promises p)).
    { apply nth_error_Some. congruence. }
    constructor; cbn [shared promises queue]; unfold saveProgress, writeJsonSafe.
    + destruct (progressWritable w _); exact Hitems.
    + destruct (progressWritable w _); exact Hstatus.
    + rewrite (map_fst_setNth _ _ _ _ _ E). exact Horder.
    + intros k' t' r' Hk'. rewrite !nth_error_setNth in Hk' by assumption.
      destruct (Nat.eqb k k') eqn:Ek.
      * apply Nat.eqb_eq in Ek. subst k'.
        destruct Hk' as [[= <- <-] | [=]]. exact Hout.
      * now apply Hrecords.
    + exists (done ++ [(t, r)]). split.
      * rewrite <- finished_finish by eassumption.
        rewrite <- Permutation_cons_append. now constructor.
      * destruct (progressWritable w _); cbn [progress pushResult completed results];
          rewrite Hcompleted, Hresults, !map_app, <- !app_assoc; auto.
  - destruct (nth_error (promises p) k) as [[t [|r|]]|] eqn:E; try discriminate.
    intros [= <-].
    assert (Hk : k < List.length (promises p)).
    { apply nth_error_Some. congruence. }
    constructor; cbn [shared promises queue]; try assumption.
    + rewrite (map_fst_setNth _ _ _ _ _ E). exact Horder.
    + intros k' t' r' Hk'. rewrite !nth_error_setNth in Hk' by assumption.
      destruct (Nat.eqb k k') eqn:Ek.
      * apply Nat.eqb_eq in Ek. subst k'.
        destruct Hk' as [[=] | [= <- <-]]. apply (Hrecords k t r). now left.
      * now apply Hrecords.
    + exists done. rewrite (finished_settle _ _ _ _ E). auto.
Qed.

Lemma tracks_exec schedule p p' :
  tracks runner h w dir from todo p -> exec poolLimit itemH schedule p = Some p' ->
  tracks runner h w dir from todo p'.
Proof.
  apply exec_invariant. intros q e q'. apply tracks_step.
Qed.



Lemma finished_values {T R} (ps : list (T * Phase R)) :
  map snd (finished ps) = values ps.
Proof.
  induction ps as [|[t0 [|r|r]] ps IH]; simpl; congruence.
Qed.





Lemma settled_outcomes (ps : list (Item * Phase JsObject)) (k0 : nat) :
  (forall k t r, nth_error ps k = Some (t, Settled r) ->
                 outcome runner h w dir (k0 + k) t = Some r) ->
  forallb isSettled ps = true ->
  map Some (values ps) = outcomes runner h w dir k0 (map fst ps).
Proof.
  revert k0. induction ps as [|[t ph] ps IH]; intros k0 Hrec Hall; [reflexivity |].
  simpl in Hall. apply andb_true_iff in Hall as [Hs Hall].
  destruct ph as [| |r]; try discriminate. simpl.
  rewrite <- (Hrec 0 t r eq_refl), Nat.add_0_r. f_equal.
  apply IH; [| exact Hall].
  intros k t' r' Hk. replace (S k0 + k) with (k0 + S k) by lia.
  now apply (Hrec (S k)).
Qed.

(** What a drained pool holds: the records of the items, in start order,
    and a Progress grown by the same records in completion order. *)
Lemma drained_results p :
  tracks runner h w dir from todo p -> drained p = true ->
  map Some (values (promises p)) = outcomes runner h w dir 0 todo /\
  exists pushed,
    Permutation pushed (values (promises p)) /\
    results (progress (shared p)) = results from ++ pushed /\
    List.length (completed (progress (shared p)))
    = List.length (completed from) + List.length todo.
Proof.
  intros [_ _ Horder Hrecords (done & Hperm & Hcompleted & Hresults)] Hd.
  unfold drained in Hd. destruct (queue p) eqn:Hq; [| discriminate].
  rewrite app_nil_r in Horder. split.
  - rewrite <- Horder. apply settled_outcomes; [| exact Hd].
    intros k t r Hk. apply Hrecords. now right.
  - exists (map snd done). split; [| split; [exact Hresults |]].
    + rewrite <- finished_values. now apply Permutation_map.
    + rewrite Hcompleted, length_app, length_map.
      rewrite (Permutation_length Hperm), <- (length_map snd), finished_values.
      rewrite <- Horder, length_map.
      assert (Hv : List.length (map Some (values (promises p)))
                   = List.length (promises p)).
      { clear - Hd. induction (promises p) as [|[t [| |r]] ps IH];
          simpl in *; try discriminate; [reflexivity |].
        now rewrite IH. }
      rewrite length_map in Hv. lia.
Qed.

End RunFacts.

(** ** How a run starts *)



(** ** The child process *)

Lemma resolved_stays (events : list ChildEvent) (st : ChildState) r :
  resolved st = Some r -> resolved (fold_left listen events st) = Some r.
Proof.
  revert st. induction events as [|e events IH]; intros st H; [exact H |].
  simpl. apply IH. destruct e; simpl; rewrite ?H; auto.
Qed.





(** ** Records and the summary *)

Lemma statuses_typed (rs : list JsObject) :
  Forall typedRecord rs -> exists ss, statuses rs = Some ss.
Proof.
  induction 1 as [|r rs Hr _ [ss IH]]; simpl; [eauto |].
  unfold typedRecord in Hr. destruct (statusOf r) as [s|]; [| congruence].
  rewrite IH. eauto.
Qed.

Lemma outcome_typed runner h w dir k item r :
  typedHandlers h -> outcome runner h w dir k item = Some r -> typedRecord r.
Proof.
  intros Htyped. unfold outcome, typedRecord.
  destruct (buildPrompt h item) as [prompt | message].
  - destruct (runCodeagent _ _ _ _) as [llm|]; [| discriminate].
    destruct (handleResult h item llm) as [result | message] eqn:E.
    + intros [= <-]. destruct (Htyped item llm result E) as [s ->]. discriminate.
    + intros [= <-]. discriminate.
  - intros [= <-]. discriminate.
Qed.

Lemma outcomes_In runner h w dir k todo o :
  In o (outcomes runner h w dir k todo) ->
  exists k' item, In item todo /\ o = outcome runner h w dir k' item.
Proof.
  revert k. induction todo as [|t todo IH]; intros k; simpl; [contradiction |].
  intros [<- | Hin]; [eauto |].
  destruct (IH _ Hin) as (k' & item & Hitem & ->). eauto.
Qed.

Lemma outcomes_length runner h w dir k todo :
  List.length (outcomes runner h w dir k todo) = List.length todo.
Proof.
  revert k. induction todo as [|t todo IH]; intros k; simpl; [reflexivity |].
  now rewrite IH.
Qed.

(** ** Runs that return *)

(** A call of [runWithConcurrency] made by [run] that returns: the array
    it resolves with holds the record of every item to process, in start
    order, and [progress.results] has grown by the same records. *)
Lemma pool_returns runner h w dir (started : Started) schedule rs st :
  runWithConcurrency (concurrency runner) (itemHandler runner h w dir)
                     (itemsToProcess started) (state0 started) schedule
  = Some (rs, st) ->
  map Some rs = outcomes runner h w dir 0 (itemsToProcess started) /\
  exists pushed,
    Permutation pushed rs /\
    results (progress st) = results (progress (state0 started)) ++ pushed.
Proof.
  unfold runWithConcurrency.
  destruct (exec _ _ schedule _) as [p|] eqn:Hexec; [| discriminate].
  destruct (drained p) eqn:Hd; [| discriminate].
  intros [= <- <-].
  assert (Htr : tracks runner h w dir (progress (state0 started))
                       (itemsToProcess started) p).
  { eapply tracks_exec; [| exact Hexec]. now apply tracks_start. }
  destruct (drained_results runner h w dir _ _ p Htr Hd)
    as (Hvalues & pushed & Hperm & Hresults & _).
  split; [exact Hvalues |]. exists pushed. auto.
Qed.

(** With handlers that keep to their typedef, a log file and a result
    file that can be written, and prior records that carry a status, a
    call of [run] whose pool returns does return its summary. *)
Lemma run_returns runner h options w file (started : Started) schedule rs st :
  logWritable w = true -> resultWritable w = true ->
  typedHandlers h ->
  begin h options w file = Ok started ->
  Forall typedRecord (results (progress (state0 started))) ->
  runWithConcurrency (concurrency runner)
                     (itemHandler runner h w (workingDir options w))
                     (itemsToProcess started) (state0 started) schedule
  = Some (rs, st) ->
  exists data,
    run runner h options w file schedule
    = Returned data (clearProgress w (progressFile st)) data /\
    rd_status data = "success" /\
    processed data
    = List.length (match existingResults started with
                   | SameAsProgressResults => results (progress st)
                   | Own records => records
                   end) + List.length (itemsToProcess started).
Proof.
  intros Hlog Hres Htyped Hbegin Hprior Hpool.
  destruct (pool_returns _ _ _ _ _ _ _ _ Hpool) as (Hrs & pushed & Hperm & Hresults).
  assert (Hnew : Forall typedRecord rs).
  { apply Forall_forall. intros r Hr.
    assert (Hin : In (Some r) (outcomes runner h w (workingDir options w) 0
                                        (itemsToProcess started))).
    { rewrite <- Hrs. now apply in_map. }
    apply outcomes_In in Hin as (k & item & _ & Hk).
    eapply outcome_typed; [exact Htyped | symmetry; exact Hk]. }
  assert (Hexisting : Forall typedRecord
                             (match existingResults started with
                              | SameAsProgressResults => results (progress st)
                              | Own records => records
                              end)).
  { revert Hbegin. unfold begin.
    destruct (resumeMode options && _).
    - intros [= <-]. cbn [existingResults]. rewrite Hresults.
      apply Forall_app. split; [exact Hprior |].
      apply Forall_forall. intros r Hr. rewrite Forall_forall in Hnew.
      apply Hnew. eapply Permutation_in; eassumption.
    - destruct (scan h _); [| discriminate]. intros [= <-]. constructor. }
  assert (Hlen : List.length rs = List.length (itemsToProcess started)).
  { rewrite <- (length_map Some), Hrs. apply outcomes_length. }
  unfold run. rewrite Hlog, Hbegin, Hpool. cbn [negb].
  destruct (statuses_typed _ (proj2 (Forall_app _ _ _) (conj Hexisting Hnew)))
    as [ss Hss].
  unfold summarize. rewrite Hss, Hres.
  eexists. split; [reflexivity |]. split; [reflexivity |].
  cbn [processed]. now rewrite length_app, Hlen.
Qed.

(** ** Writes of the checkpoint that fail *)




Lemma sequential_run runner h w dir (todo : list Item) (st0 : RunState) :
  responsive runner h w dir todo ->
  exists rs st,
    runWithConcurrency (concurrency runner) (itemHandler runner h w dir)
                       todo st0 (sequential 0 (List.length todo)) = Some (rs, st).
Proof.
  intros Hlive.
  destruct (sequential_drains (concurrency runner) (itemHandler runner h w dir) todo)
    with (q := todo) (ps := @nil (Item * Phase JsObject)) (s := st0)
    as (p & Hexec & Hd); try reflexivity.
  - intros k t s Hk. unfold itemHandler.
    specialize (Hlive k t Hk).
    destruct (outcome runner h w dir k t); [discriminate | congruence].
  - unfold runWithConcurrency, start. simpl in Hexec. rewrite Hexec, Hd. eauto.
Qed.




(** After a resume the new records are counted twice: [existingResults]
    is the array the handlers push to. *)
Lemma resumed_run_counts_twice runner h options w loaded schedule data f g :
  resumeMode options = true -> status loaded = "running" ->
  run runner h options w (Json loaded) schedule = Returned data f g ->
  let todo := filter (fun item => negb (setHas (completed loaded) (item_id item)))
                     (items loaded) in
  processed data = List.length (results loaded) + 2 * List.length todo.
Proof.
  intros Hresume Hstatus. unfold run, begin, loadProgress, readJsonSafe.
  rewrite Hresume, Hstatus. cbn [andb String.eqb Ascii.eqb Bool.eqb].
  destruct (negb (logWritable w)); [discriminate |].
  match goal with
  | |- context [runWithConcurrency ?n ?hd ?t ?s schedule] =>
      destruct (runWithConcurrency n hd t s schedule) as [[rs st]|] eqn:Hpool
  end; [| discriminate].
  cbn [existingResults itemsToProcess state0] in *.
  destruct (pool_returns runner h w (workingDir options w)
              (mkStarted _ SameAsProgressResults (mkState loaded (Json loaded) 0 []))
              schedule rs st Hpool) as (Hrs & pushed & Hperm & Hresults).
  cbn [itemsToProcess state0 progress] in *.
  destruct (summarize w _) as [d | m] eqn:Hsum; [| discriminate].
  destruct (resultWritable w); [| discriminate].
  intros [= <- _ _]. unfold summarize in Hsum.
  destruct (statuses _); [| discriminate]. injection Hsum as <-.
  cbn [processed]. rewrite Hresults, !length_app.
  rewrite (Permutation_length Hperm), <- (length_map Some rs), Hrs, outcomes_length.
  simpl. lia.
Qed.

(** ** The properties of the specification *)

Import Samples.

(** The constructor never leaves a limit below one, unless it is given a
    negative one. *)
Lemma newBatchRunner_limit (options : BatchRunnerOptions) :
  (forall c, opt_concurrency options = Some c -> (0 <= c)%Z) ->
  (1 <= concurrency (newBatchRunner options))%Z.
Proof.
  unfold newBatchRunner, orElse, DEFAULT_CONCURRENCY. cbn [concurrency].
  destruct (opt_concurrency options) as [[|c|c]|]; intros H; try lia.
  specialize (H _ eq_refl). lia.
Qed.

(** C8 (concurrency bound). With a limit of at least one, after any
    sequence of loop passes, handler completions and promise settlements
    of [runWithConcurrency], the handlers in flight (the promises not yet
    settled) are at most the limit, whatever the list of tasks. *)
Theorem concurrency_bound {T R Sh : Type} (limit : Z)
  (handler : nat -> T -> Sh -> option (R * Sh)) (tasks : list T) (s : Sh)
  (schedule : list Event) (p : Pool T R Sh) :
  (1 <= limit)%Z ->
  exec limit handler schedule (start tasks s) = Some p ->
  (Z.of_nat (executingSize (promises p)) <= limit)%Z.
Proof.
  intros Hlimit Hexec.
  assert (H : withinLimit limit p).
  { revert Hexec. apply (exec_invariant limit handler (withinLimit limit)).
    - intros q e q'. apply withinLimit_step.
    - unfold withinLimit, start, executingSize. simpl. lia. }
  exact (proj1 H).
Qed.

(** Five tasks under a limit of two: the loop has to wait for a promise to
    settle before it starts the third. *)
Lemma concurrency_bound_witness :
  let handler := fun (k : nat) (t : string) (log : list string) => Some (k, t :: log) in
  step 2 handler (mkPool ["c"; "d"; "e"] [("a", Working); ("b", Working)] true []) Launch
  = None /\
  exists p,
    exec 2 handler [Launch; Launch; Finish 1; Settle 1; Launch]
         (start ["a"; "b"; "c"; "d"; "e"] []) = Some p /\
    executingSize (promises p) = 2 /\
    (Z.of_nat (executingSize (promises p)) <= 2)%Z.
Proof.
  intros handler. split; [reflexivity |].
  eexists. split; [reflexivity |]. split; [reflexivity |].
  apply (concurrency_bound 2 handler ["a"; "b"; "c"; "d"; "e"] []
           [Launch; Launch; Finish 1; Settle 1; Launch]); [lia | reflexivity].
Defined.



(** C1 (resume). At the checkpoint of the specification, A and B
    completed out of A, B, C, D, the resumed run does process exactly C and
    D; but its aggregate counts six records, not four: A, B, then C and D
    as the handlers pushed them, then C and D again as [runWithConcurrency]
    returned them. *)
Theorem resume_counts_new_results_twice :
  let w := worldOf (fun _ => answers) true in
  let options := mkRunOptions (Some true) None in
  let data := mkResultData "2026-01-01T00:00:00.000Z" "success" 6
                           [("processed", 6)] 0 [] in
  (exists st,
      begin analyzerHandlers options w (Json halfDone)
      = Ok (mkStarted [itemC; itemD] SameAsProgressResults st)) /\
  (exists st,
      runWithConcurrency (concurrency auditRunner)
        (itemHandler auditRunner analyzerHandlers w "/repo")
        [itemC; itemD] (mkState halfDone (Json halfDone) 0 []) (sequential 0 2)
      = Some ([recordOf "C"; recordOf "D"], st) /\
      results (progress st)
      = [recordOf "A"; recordOf "B"; recordOf "C"; recordOf "D"]) /\
  run auditRunner analyzerHandlers options w (Json halfDone) (sequential 0 2)
  = Returned data Missing data.
Proof.
  intros w options data. split; [| split].
  - eexists. reflexivity.
  - eexists. split; vm_compute; reflexivity.
  - vm_compute. reflexivity.
Qed.







(** C10 (unusable checkpoint). When the checkpoint file is missing,
    unreadable or not JSON, [loadProgress] returns the idle default; a run
    asked to resume then starts exactly as a run not asked to: it scans,
    takes all the items, and has an empty array of its own for the prior
    results; and with handlers that keep to their typedef and can finish,
    it runs to its summary, every scanned item counted once. *)
Theorem unusable_checkpoint_falls_back (runner : BatchRunner) (h : TaskHandlers)
  (w : World) (file : File Progress) (dir : option string) :
  unusable file = true ->
  loadProgress file = mkProgress "idle" None [] [] [] /\
  begin h (mkRunOptions (Some true) dir) w file
  = begin h (mkRunOptions (Some false) dir) w file /\
  begin h (mkRunOptions (Some true) dir) w file
  = match scan h (workingDir (mkRunOptions (Some true) dir) w) with
    | Threw message => Threw message
    | Ok allItems =>
        Ok (mkStarted allItems (Own [])
              (saveProgress w
                 (mkState (mkProgress "running" (Some (now w)) allItems [] [])
                          file 0 [])))
    end /\
  (forall schedule,
      run runner h (mkRunOptions (Some true) dir) w file schedule
      = run runner h (mkRunOptions (Some false) dir) w file schedule) /\
  (forall allItems,
      scan h (workingDir (mkRunOptions (Some true) dir) w) = Ok allItems ->
      typedHandlers h -> logWritable w = true -> resultWritable w = true ->
      responsive runner h w (workingDir (mkRunOptions (Some true) dir) w) allItems ->
      exists data checkpoint,
        run runner h (mkRunOptions (Some true) dir) w file
            (sequential 0 (List.length allItems))
        = Returned data checkpoint data /\
        rd_status data = "success" /\
        processed data = List.length allItems).
Proof.
  intros Hfile.
  assert (Hload : loadProgress file = idle) by (destruct file; [..| discriminate]; reflexivity).
  assert (Hbegin : forall b,
             begin h (mkRunOptions (Some b) dir) w file
             = match scan h (workingDir (mkRunOptions (Some true) dir) w) with
               | Threw message => Threw message
               | Ok allItems =>
                   Ok (mkStarted allItems (Own [])
                         (saveProgress w
                            (mkState (mkProgress "running" (Some (now w)) allItems [] [])
                                     file 0 [])))
               end).
  { intros b. unfold begin. rewrite Hload. cbn [status idle].
    change (String.eqb "idle" "running") with false. rewrite andb_false_r.
    reflexivity. }
  split; [exact Hload |]. split; [now rewrite !Hbegin |].
  split; [apply Hbegin |]. split.
  - intros schedule. unfold run. rewrite !Hbegin. reflexivity.
  - intros allItems Hscan Htyped Hlog Hres Hlive.
    specialize (Hbegin true). rewrite Hscan in Hbegin.
    destruct (sequential_run runner h w _ allItems
                (saveProgress w
                   (mkState (mkProgress "running" (Some (now w)) allItems [] [])
                            file 0 [])) Hlive) as (rs & st & Hpool).
    destruct (run_returns runner h (mkRunOptions (Some true) dir) w file _
                (sequential 0 (List.length allItems)) rs st
                Hlog Hres Htyped Hbegin) as (data & Hrun & Hstatus & Hcount).
    + unfold saveProgress, writeJsonSafe. destruct (progressWritable w _); constructor.
    + exact Hpool.
    + exists data, (clearProgress w (progressFile st)).
      split; [exact Hrun |]. split; [exact Hstatus |].
      rewrite Hcount. reflexivity.
Qed.

(** A checkpoint cut short by a crash, and a resume asked for. *)
Lemma unusable_checkpoint_falls_back_witness :
  let w := worldOf (fun _ => answers) true in
  let file := NotJson "{ status: running, items: [ { id: A" in
  loadProgress file = mkProgress "idle" None [] [] [] /\
  run auditRunner analyzerHandlers (mkRunOptions (Some true) None) w file
      (sequential 0 4)
  = run auditRunner analyzerHandlers (mkRunOptions (Some false) None) w file
        (sequential 0 4) /\
  exists data checkpoint,
    run auditRunner analyzerHandlers (mkRunOptions (Some true) None) w file
        (sequential 0 4)
    = Returned data checkpoint data /\
    rd_status data = "success" /\ processed data = 4.
Proof.
  intros w file.
  destruct (unusable_checkpoint_falls_back auditRunner analyzerHandlers w file None
              eq_refl) as (Hload & _ & _ & Hsame & Hruns).
  split; [exact Hload |]. split; [exact (Hsame _) |].
  apply (Hruns [itemA; itemB; itemC; itemD]); try reflexivity.
  - intros item llm result. unfold analyzerHandlers. cbn [handleResult].
    destruct (success llm); intros [= <-]; eexists; reflexivity.
  - intros k item Hk.
    destruct k as [|[|[|[|k]]]]; simpl in Hk; try discriminate;
      injection Hk as <-; vm_compute; discriminate.
Defined.

End RunnerFacts.

(* ===================================================================== *)
(** * Further properties of the planner                                  *)
(* ===================================================================== *)

Module PlannerMore.
Import Planner PlannerFacts Notions.

(** ** parseDependencies *)

Lemma takeWhile_all cls s : stringAll cls (fst (takeWhile cls s)) = true.
Proof.
  induction s as [|c s IH]; simpl; [reflexivity |].
  destruct (cls c) eqn:E; [| reflexivity].
  destruct (takeWhile cls s) as [run rest]. simpl in *. now rewrite E, IH.
Qed.

(** The capture of a match is a non-empty run of one of the classes the
    regex captures. *)
Lemma matchHere_capture re cap s g rest :
  matchHere re cap s = Some (Some g, rest) ->
  cap = Some g \/
  exists cls, In (Capture cls) re /\ g <> EmptyString /\ stringAll cls g = true.
Proof.
  revert cap s. induction re as [|a re IH]; intros cap s; simpl.
  - intros [= -> _]. now left.
  - destruct a as [l | cls | cls | cls].
    + destruct (matchLiteral l s) as [s'|]; [| discriminate].
      intros H. apply IH in H as [H | (c & Hc & H)]; [now left |].
      right. exists c. auto.
    + destruct (takeWhile cls s) as [[|c0 run] s']; [discriminate |].
      intros H. apply IH in H as [H | (c & Hc & H)]; [now left |].
      right. exists c. auto.
    + intros H. apply IH in H as [H | (c & Hc & H)]; [now left |].
      right. exists c. auto.
    + pose proof (takeWhile_all cls s) as Hall.
      destruct (takeWhile cls s) as [[|c0 run] s']; [discriminate |].
      intros H. apply IH in H as [[= <-] | (c & Hc & H)].
      * right. exists cls. split; [now left |]. split; [discriminate | exact Hall].
      * right. exists c. auto.
Qed.

Lemma execAll_capture re s skip g :
  In g (execAll re s skip) ->
  exists cls, In (Capture cls) re /\ g <> EmptyString /\ stringAll cls g = true.
Proof.
  revert skip. induction s as [|c s IH]; intros skip; simpl; [contradiction |].
  destruct skip as [|k]; [| apply IH].
  unfold matchAt.
  destruct (matchHere re None (String c s)) as [[[g0|] rest]|] eqn:E;
    try apply IH.
  intros [<- | Hin]; [| eapply IH, Hin].
  apply matchHere_capture in E as [[=] | H]. exact H.
Qed.

Lemma setAdd_NoDup x l : NoDup l -> NoDup (setAdd x l).
Proof.
  intros Hnd. unfold setAdd. destruct (existsb _ l) eqn:E; [exact Hnd |].
  apply NoDup_app; [exact Hnd | repeat constructor; simpl; tauto |].
  intros a Ha [Heq | []]. subst a.
  assert (H : setHas l x = true) by now apply setHas_In.
  unfold setHas in H. congruence.
Qed.

Lemma addMatches_spec (ms acc : list string) :
  NoDup acc ->
  NoDup (fold_left (fun a m => setAdd m a) ms acc) /\
  (forall x, In x (fold_left (fun a m => setAdd m a) ms acc) <-> In x acc \/ In x ms).
Proof.
  revert acc. induction ms as [|m ms IH]; intros acc Hnd; simpl; [tauto |].
  destruct (IH (setAdd m acc) (setAdd_NoDup m acc Hnd)) as [H1 H2].
  split; [exact H1 |]. intros x. rewrite H2, setAdd_In. simpl.
  intuition congruence.
Qed.

Lemma addPatterns_spec (d : string) (ps : list Regex) (acc : list string) :
  NoDup acc ->
  NoDup (fold_left
           (fun deps pattern =>
              fold_left (fun a m => setAdd m a) (execAll pattern d 0) deps)
           ps acc) /\
  (forall x,
      In x (fold_left
              (fun deps pattern =>
                 fold_left (fun a m => setAdd m a) (execAll pattern d 0) deps)
              ps acc) <->
      In x acc \/ exists pattern, In pattern ps /\ In x (execAll pattern d 0)).
Proof.
  revert acc. induction ps as [|p0 ps IH]; intros acc Hnd; simpl.
  - split; [exact Hnd |]. intros x. split; [auto |].
    intros [H | (p0 & [] & _)]. exact H.
  - destruct (addMatches_spec (execAll p0 d 0) acc Hnd) as [H1 H2].
    destruct (IH _ H1) as [H3 H4]. split; [exact H3 |].
    intros x. rewrite H4, H2. split.
    + intros [[H | H] | (q & Hq & H)]; eauto.
    + intros [H | (q & [<- | Hq] & H)]; eauto.
Qed.

Lemma parseDependencies_fold (d : string) :
  d <> EmptyString ->
  parseDependencies (Some d)
  = fold_left
      (fun deps pattern =>
         fold_left (fun a m => setAdd m a) (execAll pattern d 0) deps)
      DEP_PATTERNS [].
Proof. destruct d as [|c d]; [congruence | reflexivity]. Qed.

Lemma parseDependencies_NoDup (taskDescription : option string) :
  NoDup (parseDependencies taskDescription).
Proof.
  destruct taskDescription as [[|c d]|]; try constructor.
  rewrite parseDependencies_fold by discriminate.
  apply addPatterns_spec. constructor.
Qed.

(** X1. The ids [parseDependencies] returns are pairwise distinct, and
    each is a non-empty run of ASCII letters and digits: exactly the ids
    captured, in some description position, by one of the four patterns. *)
Theorem parseDependencies_ids (taskDescription : option string) :
  NoDup (parseDependencies taskDescription) /\
  (forall x, In x (parseDependencies taskDescription) ->
             x <> EmptyString /\ stringAll isAlnum x = true) /\
  (forall x d, taskDescription = Some d -> d <> EmptyString ->
               (In x (parseDependencies taskDescription) <->
                exists pattern, In pattern DEP_PATTERNS /\ In x (execAll pattern d 0))).
Proof.
  split; [apply parseDependencies_NoDup |].
  destruct taskDescription as [d|]; [| split; [intros x [] | discriminate]].
  destruct d as [|c d]; [split; [intros x [] | intros; congruence] |].
  rewrite parseDependencies_fold by discriminate.
  destruct (addPatterns_spec (String c d) DEP_PATTERNS [] (NoDup_nil _)) as [_ H2].
  split.
  - intros x Hx. apply H2 in Hx as [[] | (p0 & Hp & Hx)].
    apply execAll_capture in Hx as (cls & Hcls & Hne & Hall).
    split; [exact Hne |].
    assert (cls = isAlnum) as ->; [| exact Hall].
    unfold DEP_PATTERNS, bracketedId in Hp. simpl in Hp.
    repeat (destruct Hp as [<- | Hp]; [simpl in Hcls; intuition congruence |]).
    contradiction.
  - intros x d' [= <-] _. rewrite H2. simpl. tauto.
Qed.

Lemma parseDependencies_ids_witness :
  let text := "Blocked by: [a1]; after [a1], REQUIRES [B2] and after [no id]" in
  parseDependencies (Some text) = ["a1"; "B2"] /\
  NoDup (parseDependencies (Some text)) /\
  (("B2" : string) <> EmptyString /\ stringAll isAlnum "B2" = true) /\
  exists pattern, In pattern DEP_PATTERNS /\ In "B2" (execAll pattern text 0).
Proof.
  intros text.
  destruct (parseDependencies_ids (Some text)) as (Hnd & Hids & Hfrom).
  assert (Hparsed : parseDependencies (Some text) = ["a1"; "B2"])
    by (vm_compute; reflexivity).
  assert (Hin : In "B2" (parseDependencies (Some text)))
    by (rewrite Hparsed; right; left; reflexivity).
  assert (Htext : text <> EmptyString) by discriminate.
  split; [exact Hparsed |]. split; [exact Hnd |].
  split; [exact (Hids "B2" Hin) |].
  exact (proj1 (Hfrom "B2" text eq_refl Htext) Hin).
Defined.

(** ** buildDependencyGraph: the dependents *)

Lemma get_In_NoDup (g : Graph) x n :
  NoDup (keys g) -> (In (x, n) g <-> get x g = Some n).
Proof.
  unfold keys. induction g as [|[k m] g IH]; simpl; intros Hnd.
  - split; [contradiction | discriminate].
  - inversion Hnd as [|? ? Hout Hnd']; subst.
    destruct (String.eqb x k) eqn:E.
    + apply String.eqb_eq in E. subst k. split.
      * intros [[= ->] | Hin]; [reflexivity |].
        exfalso. apply Hout. apply (in_map fst) in Hin. exact Hin.
      * intros [= ->]. now left.
    + apply String.eqb_neq in E. rewrite <- (IH Hnd'). split.
      * intros [[= -> _] | Hin]; [congruence | exact Hin].
      * auto.
Qed.

Lemma linkDependent_keys x g d : keys (linkDependent x g d) = keys g.
Proof. apply sched_keys, linkDependent_same. Qed.

Lemma dependentsOf_set_same k n g :
  dependentsOf (set k n g) k = dependents n.
Proof. unfold dependentsOf. now rewrite get_set_same. Qed.

Lemma dependentsOf_set_other k k' n g :
  k' <> k -> dependentsOf (set k n g) k' = dependentsOf g k'.
Proof. intros H. unfold dependentsOf. now rewrite get_set_other. Qed.

(** One [push]: the dependents of the dep grow by the id, nothing else
    changes; and nothing at all when the dep is no key. *)
Lemma linkDependent_dependents y g d x :
  dependentsOf (linkDependent y g d) x =
  if String.eqb x d && setHas (keys g) d then dependentsOf g x ++ [y]
  else dependentsOf g x.
Proof.
  unfold linkDependent. destruct (get d g) as [dn|] eqn:E.
  - assert (Hk : setHas (keys g) d = true)
      by (apply setHas_In; eapply get_Some_key, E).
    rewrite Hk, andb_true_r. destruct (String.eqb x d) eqn:Ex.
    + apply String.eqb_eq in Ex. subst x.
      rewrite dependentsOf_set_same. unfold dependentsOf. now rewrite E.
    + apply String.eqb_neq in Ex. now apply dependentsOf_set_other.
  - assert (Hk : setHas (keys g) d = false).
    { apply setHas_false. intros Hin. apply key_get_Some in Hin as [n Hn]. congruence. }
    rewrite Hk, andb_false_r. reflexivity.
Qed.

Lemma linkAll_dependents y ds g x :
  NoDup ds ->
  dependentsOf (fold_left (linkDependent y) ds g) x =
  if setHas ds x && setHas (keys g) x then dependentsOf g x ++ [y]
  else dependentsOf g x.
Proof.
  revert g. induction ds as [|d ds IH]; intros g Hnd; simpl; [reflexivity |].
  inversion Hnd as [|? ? Hout Hnd']; subst.
  rewrite (IH _ Hnd'), linkDependent_keys, linkDependent_dependents.
  destruct (String.eqb x d) eqn:Ex.
  - apply String.eqb_eq in Ex. subst x.
    apply setHas_false in Hout. rewrite Hout. simpl.
    destruct (setHas (keys g) d); reflexivity.
  - simpl. reflexivity.
Qed.

Lemma fillDependents_dependents entries g x :
  Forall (fun e => NoDup (snd e)) entries ->
  dependentsOf (fillDependents entries g) x =
  if setHas (keys g) x
  then dependentsOf g x ++ map fst (filter (fun e => setHas (snd e) x) entries)
  else dependentsOf g x.
Proof.
  unfold fillDependents. revert g.
  induction entries as [|[y ds] es IH]; intros g HF; simpl.
  - destruct (setHas (keys g) x); [now rewrite app_nil_r | reflexivity].
  - inversion HF as [|? ? Hds HF']; subst. simpl in Hds.
    rewrite (IH _ HF').
    assert (Hkeys : keys (fold_left (linkDependent y) ds g) = keys g).
    { clear. revert g. induction ds as [|d ds IHd]; intros g; simpl; [reflexivity |].
      now rewrite IHd, linkDependent_keys. }
    rewrite Hkeys, (linkAll_dependents y ds g x Hds).
    destruct (setHas (keys g) x); [| now rewrite andb_false_r].
    rewrite andb_true_r. destruct (setHas ds x); simpl; [| reflexivity].
    now rewrite <- app_assoc.
Qed.

Lemma insertTasks_fresh ids tasks g x n :
  (forall y m, get y g = Some m -> dependents m = [] /\ NoDup (deps m)) ->
  get x (insertTasks ids tasks g) = Some n ->
  dependents n = [] /\ NoDup (deps n).
Proof.
  intros Hg H. apply insertTasks_get in H as [H | (t & _ & _ & ->)]; [eauto |].
  simpl. split; [reflexivity |].
  apply NoDup_filter, parseDependencies_NoDup.
Qed.

(** X2. In the graph of [buildDependencyGraph] the dependents of a task
    are the reverse of the deps: the ids, in graph order and each once,
    of the tasks that have it among their deps. *)
Theorem dependents_reverse_deps (todo : list TaskRecord) (x : string) :
  dependentsOf (buildDependencyGraph todo) x
  = filter (fun y => setHas (depsOf (buildDependencyGraph todo) y) x)
           (keys (buildDependencyGraph todo)).
Proof.
  set (g1 := insertTasks (map id todo) todo []).
  assert (Hnd : NoDup (keys g1)) by (apply insertTasks_keys_NoDup; constructor).
  assert (Hfresh : forall y m, get y g1 = Some m -> dependents m = [] /\ NoDup (deps m)).
  { intros y m. apply insertTasks_fresh. intros ? ? [=]. }
  assert (Hentries : Forall (fun e : string * list string => NoDup (snd e))
                            (map (fun e => (fst e, deps (snd e))) g1)).
  { apply Forall_forall. intros e He. apply in_map_iff in He as ([y m] & <- & Hin).
    simpl. apply (get_In_NoDup g1 y m Hnd) in Hin. now apply Hfresh in Hin. }
  assert (Hdeps : forall y m, In (y, m) g1 ->
                              depsOf (buildDependencyGraph todo) y = deps m).
  { intros y m Hin. rewrite (sched_depsOf _ g1 y (build_sched todo)).
    apply (get_In_NoDup g1 y m Hnd) in Hin. unfold depsOf. now rewrite Hin. }
  rewrite (sched_keys _ _ (build_sched todo)). fold g1.
  unfold buildDependencyGraph. fold g1.
  rewrite (fillDependents_dependents _ g1 x Hentries).
  assert (Hzero : dependentsOf g1 x = []).
  { unfold dependentsOf. destruct (get x g1) as [m|] eqn:E; [| reflexivity].
    now apply Hfresh in E. }
  rewrite Hzero.
  assert (Hlist : forall l : Graph,
             (forall y m, In (y, m) l -> In (y, m) g1) ->
             map fst (filter (fun e : string * list string => setHas (snd e) x)
                             (map (fun e => (fst e, deps (snd e))) l))
             = filter (fun y => setHas (depsOf (buildDependencyGraph todo) y) x)
                      (keys l)).
  { induction l as [|[y m] l IH]; intros Hsub; [reflexivity |].
    simpl. rewrite (Hdeps y m) by (apply Hsub; now left).
    destruct (setHas (deps m) x); simpl; rewrite IH; auto.
    - intros z k Hz. apply Hsub. now right.
    - intros z k Hz. apply Hsub. now right. }
  destruct (setHas (keys g1) x) eqn:Hk; [apply Hlist; auto |].
  symmetry. apply setHas_false in Hk.
  assert (Hno : forall y, setHas (depsOf (buildDependencyGraph todo) y) x = false).
  { intros y. apply setHas_false. intros Hin. apply Hk.
    apply build_deps_closed in Hin.
    now rewrite (sched_keys _ _ (build_sched todo)) in Hin. }
  fold (buildDependencyGraph todo). clear - Hno.
  induction (keys g1) as [|y l IH]; [reflexivity |].
  simpl. rewrite Hno. exact IH.
Qed.

(** ** topologicalSort: no slack, no empty wave, stable ties *)

Lemma not_ready_blocked g c x :
  isReady g c x = false -> exists d, In d (depsOf g x) /\ ~ In d c.
Proof.
  intros H. apply forallb_false in H as (d & Hd & Hc).
  apply setHas_false in Hc. eauto.
Qed.

Lemma inWave_last (acc : list (list string)) (w : list string) d :
  In d (List.concat (acc ++ [w])) -> ~ In d (List.concat acc) ->
  inWave (acc ++ [w]) (List.length acc) d.
Proof.
  rewrite concat_app, in_app_iff. simpl. rewrite app_nil_r.
  intros [H | H] Hout; [contradiction |].
  apply inWave_snoc. right. auto.
Qed.

Lemma waves_nonempty (g : Graph) :
  Forall (fun w => w <> []) (waves (topologicalSort g)).
Proof.
  unfold topologicalSort.
  apply (sortLoop_rule g
           (fun acc _ _ => Forall (fun w => w <> []) acc)
           (fun r => Forall (fun w => w <> []) (waves r))); auto.
  intros acc c rem r rs Hne Hf. apply Forall_app. split; [exact Hne |].
  constructor; [| constructor]. intros E.
  assert (Hr : In r (sortByPriority g (r :: rs))) by (apply sortByPriority_In; now left).
  rewrite E in Hr. contradiction.
Qed.

(** X3. [topologicalSort] schedules every task as early as its deps
    allow: no wave is empty, and from the second wave on every id has a
    dependency in the wave just before its own. *)
Theorem waves_without_slack (g : Graph) :
  Forall (fun w => w <> []) (waves (topologicalSort g)) /\
  tight g (waves (topologicalSort g)).
Proof.
  unfold topologicalSort.
  apply (sortLoop_rule g
           (fun acc c rem =>
              (forall x, In x c <-> In x (List.concat acc)) /\
              Forall (fun w => w <> []) acc /\ tight g acc /\
              (forall x, In x rem -> acc <> [] ->
                         exists d, In d (depsOf g x) /\
                                   ~ In d (List.concat (removelast acc))))
           (fun r => Forall (fun w => w <> []) (waves r) /\ tight g (waves r))).
  - intros acc c (_ & H1 & H2 & _). auto.
  - intros acc c rem _ (_ & H1 & H2 & _) _. auto.
  - intros acc c rem r rs (Hc & Hne & Htight & Hblocked) Hf.
    assert (Hw : forall x, In x (sortByPriority g (r :: rs)) <->
                           In x rem /\ isReady g c x = true).
    { intros x. rewrite sortByPriority_In, <- Hf. apply filter_In. }
    assert (Hwne : sortByPriority g (r :: rs) <> []).
    { intros E. assert (Hr : In r (sortByPriority g (r :: rs)))
        by (apply sortByPriority_In; now left).
      rewrite E in Hr. contradiction. }
    revert Hw Hwne. generalize (sortByPriority g (r :: rs)). intros w Hw Hwne.
    assert (Hcat : List.concat (acc ++ [w]) = List.concat acc ++ w).
    { rewrite concat_app. simpl. now rewrite app_nil_r. }
    split; [| split; [| split]].
    + intros x. rewrite Hcat, addAll_In, in_app_iff, Hc. tauto.
    + apply Forall_app. split; [exact Hne | now constructor].
    + intros i x Hix. apply inWave_snoc in Hix as [Hix | [Hi Hxw]].
      * destruct (Htight i x Hix) as (d & Hd & Hid).
        exists d. split; [exact Hd |]. apply inWave_snoc. now left.
      * apply Hw in Hxw as [Hrem Hready].
        assert (Hacc : acc <> []) by (intros ->; discriminate).
        destruct (Hblocked x Hrem Hacc) as (d & Hd & Hout).
        exists d. split; [exact Hd |].
        rewrite isReady_spec in Hready. specialize (Hready d Hd).
        apply Hc in Hready.
        rewrite (app_removelast_last [] Hacc) in Hready.
        apply inWave_last in Hready; [| exact Hout].
        rewrite (app_removelast_last [] Hacc).
        apply inWave_snoc. left.
        replace i with (List.length (removelast acc)); [exact Hready |].
        rewrite (app_removelast_last [] Hacc), length_app in Hi. simpl in Hi. lia.
    + intros x Hx _. rewrite removelast_last.
      apply deleteAll_In in Hx as [Hrem Hnw].
      assert (Hnr : isReady g c x = false).
      { destruct (isReady g c x) eqn:E; [| reflexivity].
        exfalso. apply Hnw, Hw. auto. }
      apply not_ready_blocked in Hnr as (d & Hd & Hdc).
      exists d. split; [exact Hd |]. now rewrite <- Hc.
  - split; [simpl; tauto |]. split; [constructor |]. split.
    + intros i x (w & Hi & _). destruct i; discriminate.
    + intros x _ H. congruence.
Qed.

Lemma waves_without_slack_witness :
  let g := buildDependencyGraph
             [mkTask "a" "a" None 0; mkTask "b" "b" (Some "after [a]") 0;
              mkTask "c" "c" (Some "after [b] after [a]") 0] in
  waves (topologicalSort g) = [["a"]; ["b"]; ["c"]] /\
  exists d, In d (depsOf g "c") /\ inWave (waves (topologicalSort g)) 1 d.
Proof.
  intros g. split; [vm_compute; reflexivity |].
  apply (proj2 (waves_without_slack g) 1 "c").
  exists ["c"]. split; [vm_compute; reflexivity | now left].
Defined.

Lemma insertByPriority_stable g p x l :
  withPriority g p (insertByPriority g x l)
  = if Z.eqb (priorityOf g x) p then x :: withPriority g p l
    else withPriority g p l.
Proof.
  unfold withPriority. induction l as [|y l IH]; simpl.
  - destruct (Z.eqb (priorityOf g x) p); reflexivity.
  - destruct (_ <=? 0)%Z eqn:E; simpl.
    + destruct (Z.eqb (priorityOf g x) p); reflexivity.
    + rewrite IH. apply Z.leb_gt in E.
      destruct (Z.eqb (priorityOf g x) p) eqn:Ex; [| reflexivity].
      apply Z.eqb_eq in Ex.
      assert (Ey : Z.eqb (priorityOf g y) p = false) by (apply Z.eqb_neq; lia).
      now rewrite Ey.
Qed.

Lemma sortByPriority_stable g p l :
  withPriority g p (sortByPriority g l) = withPriority g p l.
Proof.
  induction l as [|x l IH]; simpl; [reflexivity |].
  rewrite insertByPriority_stable, IH. unfold withPriority. simpl.
  destruct (Z.eqb (priorityOf g x) p); reflexivity.
Qed.

Lemma filter_filter {A} (f h : A -> bool) (l : list A) :
  filter f (filter h l) = filter (fun x => h x && f x) l.
Proof.
  induction l as [|x l IH]; simpl; [reflexivity |].
  destruct (h x); simpl; [destruct (f x) |]; now rewrite IH.
Qed.

(** X4. Ties are broken by graph order: in every wave the ids of equal
    priority stand in the order of the keys of the graph (the order of the
    task list), the sort being stable. *)
Theorem ties_in_graph_order (g : Graph) (p : Z) :
  Forall (fun w =>
            withPriority g p w
            = filter (fun x => Z.eqb (priorityOf g x) p && setHas w x) (keys g))
         (waves (topologicalSort g)).
Proof.
  unfold topologicalSort.
  apply (sortLoop_rule g
           (fun acc c rem =>
              (exists f, rem = filter f (keys g)) /\
              Forall (fun w =>
                        withPriority g p w
                        = filter (fun x => Z.eqb (priorityOf g x) p && setHas w x)
                                 (keys g)) acc)
           (fun r =>
              Forall (fun w =>
                        withPriority g p w
                        = filter (fun x => Z.eqb (priorityOf g x) p && setHas w x)
                                 (keys g)) (waves r))).
  - intros acc c [_ H]. exact H.
  - intros acc c rem _ [_ H] _. exact H.
  - intros acc c rem r rs [[f Hrem] Hacc] Hf. split.
    + exists (fun x => f x && negb (setHas (sortByPriority g (r :: rs)) x)).
      unfold deleteAll. rewrite Hrem. apply filter_filter.
    + apply Forall_app. split; [exact Hacc |]. constructor; [| constructor].
      rewrite sortByPriority_stable.
      assert (Hw : forall x, In x (keys g) ->
                             setHas (sortByPriority g (r :: rs)) x
                             = f x && isReady g c x).
      { intros x Hx. destruct (f x && isReady g c x) eqn:E.
        - apply setHas_In, sortByPriority_In.
          rewrite <- Hf, Hrem, filter_filter. apply filter_In. auto.
        - apply setHas_false. intros Hin. apply sortByPriority_In in Hin.
          rewrite <- Hf, Hrem, filter_filter in Hin.
          apply filter_In in Hin as [_ Hin]. congruence. }
      rewrite <- Hf, Hrem. unfold withPriority. rewrite !filter_filter.
      apply filter_ext_in. intros x Hx.
      rewrite <- filter_filter, <- Hrem, Hf, (Hw x Hx).
      destruct (f x), (isReady g c x), (Z.eqb (priorityOf g x) p); reflexivity.
  - split; [| constructor]. exists (fun _ => true).
    clear. induction (keys g) as [|x l IH]; simpl; congruence.
Qed.

(** ** generatePlan *)

Lemma planWaves_levels g m i ws :
  map level (planWaves g m i ws) = seq i (List.length ws).
Proof.
  revert i. induction ws as [|w ws IH]; intros i; simpl; [reflexivity |].
  now rewrite IH.
Qed.

Lemma planWaves_tasks g m i ws :
  List.concat (map (fun pw => map pt_id (wave_tasks pw)) (planWaves g m i ws))
  = List.concat ws.
Proof. now rewrite planWaves_ids. Qed.

Lemma concat_length_nonempty {A} (ws : list (list A)) :
  Forall (fun w => w <> []) ws -> List.length ws <= List.length (List.concat ws).
Proof.
  induction 1 as [|w ws Hw _ IH]; simpl; [lia |].
  rewrite length_app. destruct w; [congruence | simpl; lia].
Qed.

(** X5. The plan [main] builds numbers its waves 0, 1, 2, ... and has no
    empty wave; [totalTasks] is the number of distinct task ids;
    [totalWaves] and the number of tasks the waves list never exceed it,
    and the waves list all of them exactly when [topologicalSort] reported
    no cycle. *)
Theorem plan_accounts_for_tasks (project : Project) (todo : list TaskRecord)
  (maxPar : Z) :
  let plan := fst (planTasks project todo maxPar) in
  let listed := List.concat (map (fun pw => map pt_id (wave_tasks pw))
                                 (plan_waves plan)) in
  map level (plan_waves plan) = seq 0 (totalWaves plan) /\
  Forall (fun pw => wave_tasks pw <> []) (plan_waves plan) /\
  totalTasks plan = List.length (nodup string_dec (map id todo)) /\
  totalWaves plan <= List.length listed /\
  List.length listed <= totalTasks plan /\
  NoDup listed /\
  (snd (planTasks project todo maxPar) = None <->
   List.length listed = totalTasks plan).
Proof.
  unfold planTasks, generatePlan. cbn [fst snd plan_waves totalWaves totalTasks].
  set (g := buildDependencyGraph todo).
  rewrite planWaves_tasks.
  pose proof (build_keys_NoDup todo) as Hnd. fold g in Hnd.
  destruct (topologicalSort_spec g Hnd) as (Hnodup & _ & Hrep).
  pose proof (waves_nonempty g) as Hne.
  assert (Hlen : List.length g = List.length (keys g))
    by (unfold keys; now rewrite length_map).
  split; [apply planWaves_levels |]. split.
  { apply Forall_forall. intros pw Hpw.
    assert (Hin : In (map pt_id (wave_tasks pw))
                     (map (fun pw => map pt_id (wave_tasks pw))
                          (planWaves g maxPar 0 (waves (topologicalSort g)))))
      by exact (in_map (fun pw => map pt_id (wave_tasks pw)) _ _ Hpw).
    rewrite planWaves_ids in Hin. rewrite Forall_forall in Hne.
    intros E. apply (Hne _ Hin). now rewrite E. }
  split.
  { rewrite Hlen. apply Permutation_length, NoDup_Permutation;
      [exact Hnd | apply NoDup_nodup |].
    intros x. rewrite nodup_In. apply build_keys_In. }
  split; [now apply concat_length_nonempty |].
  rewrite Hlen.
  destruct (reported (topologicalSort g)) as [stuck|].
  - destruct Hrep as (Hstuck & Hkeys & Hapart & _).
    destruct stuck as [|s stuck]; [congruence |].
    assert (Hlt : S (List.length (List.concat (waves (topologicalSort g))))
                  <= List.length (keys g)).
    { apply (NoDup_incl_length
               (l := s :: List.concat (waves (topologicalSort g)))).
      - constructor; [| exact Hnodup]. apply Hapart. now left.
      - intros x [<- | Hx]; apply Hkeys; [right; now left | now left]. }
    split; [lia |]. split; [exact Hnodup |].
    split; [discriminate | lia].
  - assert (Heq : List.length (List.concat (waves (topologicalSort g)))
                  = List.length (keys g)).
    { apply Permutation_length, NoDup_Permutation; try assumption.
      intros x. symmetry. apply Hrep. }
    split; [lia |]. split; [exact Hnodup |]. split; auto.
Qed.

End PlannerMore.

(* ===================================================================== *)
(** * Further properties of the runner                                   *)
(* ===================================================================== *)

Module RunnerMore.
Import Planner Runner Samples Shared Notions PlannerFacts RunnerFacts PlannerMore.

(** ** runCodeagent *)

Lemma nonEmpty_true s : nonEmpty s = true -> s <> EmptyString.
Proof. destruct s; [discriminate | discriminate]. Qed.

Lemma onClose_wellFormed st code : wellFormed (onClose st code).
Proof.
  unfold onClose, wellFormed.
  destruct (isZero code && nonEmpty (trim (stdout st))) eqn:E; simpl.
  - apply andb_true_iff in E as [_ E]. apply nonEmpty_true in E.
    split; [auto | discriminate].
  - split; [discriminate | intros _; discriminate].
Qed.

(** What the listeners keep true of the variables of the promise body. *)
Lemma listen_invariant (events : list ChildEvent) :
  match resolved (childAfter events) with
  | Some r =>
      wellFormed r /\
      (killed (childAfter events) = true ->
       error r = Some "timeout" /\ success r = false)
  | None => killed (childAfter events) = false
  end.
Proof.
  unfold childAfter. rewrite <- (rev_involutive events).
  induction (rev events) as [|e l IH]; [reflexivity |].
  simpl. rewrite fold_left_app. simpl.
  set (st := fold_left listen (rev l) spawned) in *.
  destruct e; simpl; try exact IH;
    destruct (resolved st) as [r|] eqn:E; simpl; rewrite ?E; try exact IH.
  - split; [apply onClose_wellFormed |]. congruence.
  - split; [| congruence]. split; [discriminate | intros _; discriminate].
  - split; [| auto]. split; [discriminate | intros _; discriminate].
Qed.

(** X6. Whatever the child and the timer do, the value [runCodeagent]
    resolves with is well formed: [success] goes with no [error] and a
    non-empty output, failure with an [error]; and when the child was sent
    SIGTERM the value is the timeout failure. *)
Theorem runCodeagent_wellFormed (kid : Spawn) (prompt dir : string) (limit : Z)
  (r : LlmResult) :
  runCodeagent kid prompt dir limit = Some r ->
  wellFormed r /\
  (killed (childAfter (kid prompt dir limit)) = true ->
   error r = Some "timeout" /\ success r = false).
Proof.
  unfold runCodeagent. intros H.
  pose proof (listen_invariant (kid prompt dir limit)) as Hinv.
  now rewrite H in Hinv.
Qed.

Lemma runCodeagent_wellFormed_witness :
  runCodeagent hangs "p" "/repo" 1000
  = Some (mkLlm false "part" None (Some "timeout")) /\
  wellFormed (mkLlm false "part" None (Some "timeout")) /\
  killed (childAfter (hangs "p" "/repo" 1000%Z)) = true.
Proof.
  split; [reflexivity |].
  split; [exact (proj1 (runCodeagent_wellFormed hangs "p" "/repo" 1000 _ eq_refl)) |].
  reflexivity.
Defined.

(** X7. The promise of [runCodeagent] settles once: after the event that
    resolved it, no output, exit, error or timer changes the value, nor
    sends a signal that was not sent. *)
Theorem runCodeagent_resolves_once (events later : list ChildEvent) (r : LlmResult) :
  resolved (childAfter events) = Some r ->
  resolved (childAfter (events ++ later)) = Some r /\
  killed (childAfter (events ++ later)) = killed (childAfter events).
Proof.
  intros H. unfold childAfter in *. rewrite fold_left_app.
  split; [now apply resolved_stays |].
  revert H. generalize (fold_left listen events spawned). intros st.
  revert st. induction later as [|e later IH]; intros st H; [reflexivity |].
  simpl. rewrite IH.
  - destruct e; simpl; try reflexivity; now rewrite H.
  - destruct e; simpl; rewrite ?H; reflexivity.
Qed.

Lemma runCodeagent_resolves_once_witness :
  resolved (childAfter [StdoutData "ok"; Close (Exited 0)])
  = Some (mkLlm true "ok" None None) /\
  resolved (childAfter ([StdoutData "ok"; Close (Exited 0)]
                        ++ [StdoutData "late"; TimerFired; SpawnError "kill EPERM"]))
  = Some (mkLlm true "ok" None None) /\
  killed (childAfter ([StdoutData "ok"; Close (Exited 0)]
                      ++ [StdoutData "late"; TimerFired; SpawnError "kill EPERM"]))
  = false.
Proof.
  split; [reflexivity |].
  destruct (runCodeagent_resolves_once
              [StdoutData "ok"; Close (Exited 0)]
              [StdoutData "late"; TimerFired; SpawnError "kill EPERM"]
              (mkLlm true "ok" None None) eq_refl) as [H1 H2].
  split; [exact H1 | rewrite H2; reflexivity].
Defined.

(** ** The session id *)

Lemma firstMatch_capture re s g :
  firstMatch re s = Some g ->
  exists cls, In (Capture cls) re /\ g <> EmptyString /\ stringAll cls g = true.
Proof.
  induction s as [|c s IH]; simpl; [discriminate |].
  unfold matchAt.
  destruct (matchHere re None (String c s)) as [[[g0|] rest]|] eqn:E; try exact IH.
  intros [= <-]. apply matchHere_capture in E as [[=] | H]. exact H.
Qed.

Lemma sessionId_invariant (events : list ChildEvent) :
  let ok := fun session =>
              match session with
              | Some found =>
                  found <> EmptyString /\ stringAll isHexDash found = true /\
                  exists chunk, In (StderrData chunk) events /\
                                firstMatch SESSION_ID chunk = Some found
              | None => True
              end in
  ok (child_sessionId (childAfter events)) /\
  match resolved (childAfter events) with
  | Some r => ok (sessionId r)
  | None => True
  end.
Proof.
  intros ok. unfold childAfter.
  assert (Hmono : forall (es : list ChildEvent) e session,
             match session with
             | Some found =>
                 found <> EmptyString /\ stringAll isHexDash found = true /\
                 exists chunk, In (StderrData chunk) es /\
                               firstMatch SESSION_ID chunk = Some found
             | None => True
             end ->
             match session with
             | Some found =>
                 found <> EmptyString /\ stringAll isHexDash found = true /\
                 exists chunk, In (StderrData chunk) (es ++ [e]) /\
                               firstMatch SESSION_ID chunk = Some found
             | None => True
             end).
  { intros es e [found|]; [| auto]. intros (H1 & H2 & chunk & Hin & H3).
    split; [exact H1 |]. split; [exact H2 |]. exists chunk.
    split; [apply in_or_app; now left | exact H3]. }
  subst ok. rewrite <- (rev_involutive events).
  induction (rev events) as [|e l IH]; [simpl; auto |].
  simpl. rewrite fold_left_app. simpl.
  set (st := fold_left listen (rev l) spawned) in *.
  destruct IH as [IH1 IH2].
  apply (Hmono _ e) in IH1.
  assert (IH2' : match resolved st with
                 | Some r =>
                     match sessionId r with
                     | Some found =>
                         found <> EmptyString /\ stringAll isHexDash found = true /\
                         exists chunk, In (StderrData chunk) (rev l ++ [e]) /\
                                       firstMatch SESSION_ID chunk = Some found
                     | None => True
                     end
                 | None => True
                 end).
  { destruct (resolved st); [| exact I]. now apply Hmono. }
  clear IH2. destruct e as [chunk | chunk | code | message |]; simpl.
  - split; assumption.
  - split; [| exact IH2'].
    destruct (firstMatch SESSION_ID chunk) as [found|] eqn:E; [| exact IH1].
    destruct (firstMatch_capture _ _ _ E) as (cls & Hcls & Hne & Hall).
    split; [exact Hne |]. split.
    + unfold SESSION_ID in Hcls. simpl in Hcls.
      destruct Hcls as [[=] | [[=] | [[= <-] | []]]]. exact Hall.
    + exists chunk. split; [apply in_or_app; right; now left | exact E].
  - destruct (resolved st) eqn:E; simpl; [rewrite E; split; assumption |].
    split; [exact IH1 |]. unfold onClose.
    destruct (isZero code && nonEmpty (trim (stdout st))); exact IH1.
  - destruct (resolved st) eqn:E; simpl; [rewrite E; split; assumption |].
    split; exact IH1.
  - destruct (resolved st) eqn:E; simpl; [rewrite E; split; assumption |].
    split; exact IH1.
Qed.

(** X8. The session id of a result comes from the standard error of
    the child: it is the capture of [SESSION_ID] in one chunk, a non-empty
    run of hex digits and dashes. A child that writes no such chunk leaves
    [sessionId] null. *)
Theorem sessionId_from_stderr (kid : Spawn) (prompt dir : string) (limit : Z)
  (r : LlmResult) (found : string) :
  runCodeagent kid prompt dir limit = Some r ->
  sessionId r = Some found ->
  found <> EmptyString /\ stringAll isHexDash found = true /\
  exists chunk, In (StderrData chunk) (kid prompt dir limit) /\
                firstMatch SESSION_ID chunk = Some found.
Proof.
  unfold runCodeagent. intros Hr Hs.
  destruct (sessionId_invariant (kid prompt dir limit)) as [_ H].
  rewrite Hr, Hs in H. exact H.
Qed.

Lemma sessionId_from_stderr_witness :
  runCodeagent crashes "p" "/repo" 1000
  = Some (mkLlm false EmptyString (Some "1f-2a") (Some "exit code 2")) /\
  stringAll isHexDash "1f-2a" = true /\
  exists chunk, In (StderrData chunk) (crashes "p" "/repo" 1000%Z) /\
                firstMatch SESSION_ID chunk = Some "1f-2a".
Proof.
  split; [reflexivity |].
  exact (proj2 (sessionId_from_stderr crashes "p" "/repo" 1000 _ "1f-2a"
                  eq_refl eq_refl)).
Defined.

(** ** runWithConcurrency, whatever the handler *)

Section PoolMore.

Context {T R Sh : Type}.
Variable limit : Z.
Variable handler : nat -> T -> Sh -> option (R * Sh).

Lemma count_setNth (f : T * Phase R -> bool) (ps : list (T * Phase R)) k old new :
  nth_error ps k = Some old ->
  List.length (filter f (setNth k new ps)) + (if f old then 1 else 0)
  = List.length (filter f ps) + (if f new then 1 else 0).
Proof.
  revert k. induction ps as [|x ps IH]; intros [|k]; simpl; try discriminate.
  - intros [= ->]. destruct (f old), (f new); simpl; lia.
  - intros H. specialize (IH k H). destruct (f x); simpl; lia.
Qed.

Lemma order_step (p : Pool T R Sh) e p' :
  step limit handler p e = Some p' ->
  map fst (promises p') ++ queue p' = map fst (promises p) ++ queue p.
Proof.
  destruct e as [|k|k]; cbn [step].
  - destruct (awaiting p); [discriminate |].
    destruct (queue p) as [|t rest]; [discriminate |].
    intros [= <-]. cbn [promises queue]. now rewrite map_app, <- app_assoc.
  - destruct (nth_error (promises p) k) as [[t [| |]]|] eqn:E; try discriminate.
    destruct (handler k t (shared p)) as [[r s']|]; [| discriminate].
    intros [= <-]. cbn [promises queue]. now rewrite (map_fst_setNth _ _ _ _ _ E).
  - destruct (nth_error (promises p) k) as [[t [|r|]]|] eqn:E; try discriminate.
    intros [= <-]. cbn [promises queue]. now rewrite (map_fst_setNth _ _ _ _ _ E).
Qed.

(** X9. Tasks are started in list order: at any moment the promises
    made so far, followed by the tasks the loop has not reached, are the
    task list itself. *)
Theorem tasks_start_in_order (tasks : list T) (s : Sh) (schedule : list Event)
  (p : Pool T R Sh) :
  exec limit handler schedule (start tasks s) = Some p ->
  map fst (promises p) ++ queue p = tasks /\
  map fst (promises p) = firstn (List.length (promises p)) tasks.
Proof.
  intros Hexec.
  assert (H : map fst (promises p) ++ queue p = tasks).
  { revert Hexec.
    apply (exec_invariant limit handler
             (fun q => map fst (promises q) ++ queue q = tasks)).
    - intros q e q' Hq Hstep. now rewrite (order_step q e q' Hstep).
    - reflexivity. }
  split; [exact H |].
  rewrite <- H, <- (length_map fst (promises p)), firstn_app, Nat.sub_diag, firstn_all.
  simpl. now rewrite app_nil_r.
Qed.

Lemma stepsLeft_step (p : Pool T R Sh) e p' :
  step limit handler p e = Some p' -> S (stepsLeft p') = stepsLeft p.
Proof.
  unfold stepsLeft. destruct e as [|k|k]; cbn [step].
  - destruct (awaiting p); [discriminate |].
    destruct (queue p) as [|t rest]; [discriminate |].
    intros [= <-]. cbn [promises queue]. rewrite !filter_app, !length_app.
    simpl. lia.
  - destruct (nth_error (promises p) k) as [[t [| |]]|] eqn:E; try discriminate.
    destruct (handler k t (shared p)) as [[r s']|]; [| discriminate].
    intros [= <-]. cbn [promises queue].
    pose proof (count_setNth isWorking _ _ _ (t, Done r) E) as H1.
    pose proof (count_setNth isDone _ _ _ (t, Done r) E) as H2.
    simpl in H1, H2. lia.
  - destruct (nth_error (promises p) k) as [[t [|r|]]|] eqn:E; try discriminate.
    intros [= <-]. cbn [promises queue].
    pose proof (count_setNth isWorking _ _ _ (t, Settled r) E) as H1.
    pose proof (count_setNth isDone _ _ _ (t, Settled r) E) as H2.
    simpl in H1, H2. lia.
Qed.

Lemma drained_stepsLeft (p : Pool T R Sh) :
  drained p = true <-> stepsLeft p = 0.
Proof.
  unfold drained, stepsLeft. destruct (queue p) as [|t q]; simpl.
  - induction (promises p) as [|[t [|r|r]] ps IH]; simpl.
    + tauto.
    + split; [discriminate | lia].
    + split; [discriminate |]. unfold isDone at 1. simpl. lia.
    + rewrite IH. unfold isDone at 2, isWorking at 2. simpl. tauto.
  - split; [discriminate | lia].
Qed.

(** X10. A call of [runWithConcurrency] takes three steps a task and no
    more: any sequence of loop passes, handler completions and settlements
    is at most three times as long as the task list, and the call has
    returned exactly when it is that long. *)
Theorem pool_terminates (tasks : list T) (s : Sh) (schedule : list Event)
  (p : Pool T R Sh) :
  exec limit handler schedule (start tasks s) = Some p ->
  List.length schedule + stepsLeft p = 3 * List.length tasks /\
  List.length schedule <= 3 * List.length tasks /\
  (drained p = true <-> List.length schedule = 3 * List.length tasks).
Proof.
  intros Hexec.
  assert (H : forall sch (q q' : Pool T R Sh),
             exec limit handler sch q = Some q' ->
             List.length sch + stepsLeft q' = stepsLeft q).
  { induction sch as [|e sch IH]; intros q q'; simpl.
    - intros [= <-]. reflexivity.
    - destruct (step limit handler q e) as [q1|] eqn:E; [| discriminate].
      intros Hq. apply IH in Hq. apply stepsLeft_step in E. lia. }
  apply H in Hexec.
  assert (H0 : stepsLeft (start tasks s : Pool T R Sh) = 3 * List.length tasks)
    by (unfold stepsLeft, start; cbn [queue promises filter List.length]; lia).
  rewrite drained_stepsLeft. lia.
Qed.

Lemma unsettled_promise (ps : list (T * Phase R)) :
  forallb isSettled ps = false ->
  exists k t, nth_error ps k = Some (t, Working) \/
              exists r, nth_error ps k = Some (t, Done r).
Proof.
  induction ps as [|[t ph] ps IH]; simpl; [discriminate |].
  destruct ph as [|r|r].
  - intros _. exists 0, t. now left.
  - intros _. exists 0, t. right. now exists r.
  - unfold isSettled at 1. simpl. intros H.
    destruct (IH H) as (k & t' & Hk). exists (S k), t'. exact Hk.
Qed.

Lemma awaiting_step (p : Pool T R Sh) e p' :
  (awaiting p = true -> forallb isSettled (promises p) = false) ->
  step limit handler p e = Some p' ->
  awaiting p' = true -> forallb isSettled (promises p') = false.
Proof.
  intros Hp. destruct e as [|k|k]; cbn [step].
  - destruct (awaiting p); [discriminate |].
    destruct (queue p) as [|t rest]; [discriminate |].
    intros [= <-] _. cbn [promises]. rewrite forallb_app. simpl.
    apply andb_false_r.
  - destruct (nth_error (promises p) k) as [[t [| |]]|] eqn:E; try discriminate.
    destruct (handler k t (shared p)) as [[r s']|]; [| discriminate].
    intros [= <-] _. cbn [promises]. clear Hp. revert k E.
    induction (promises p) as [|x ps IH]; intros [|k]; simpl; try discriminate.
    + reflexivity.
    + intros E. rewrite (IH k E). apply andb_false_r.
  - destruct (nth_error (promises p) k) as [[t [|r|]]|]; try discriminate.
    intros [= <-]. discriminate.
Qed.

(** X11. The pool cannot deadlock: as long as handlers can finish, a call
    that has not returned always has a next step, whatever the limit: a
    promise to settle, a handler to finish, or the next task to start. *)
Theorem pool_never_stuck (tasks : list T) (s : Sh) (schedule : list Event)
  (p : Pool T R Sh) :
  (forall k t s', handler k t s' <> None) ->
  exec limit handler schedule (start tasks s) = Some p ->
  drained p = false ->
  exists e p', step limit handler p e = Some p'.
Proof.
  intros Hlive Hexec Hd.
  assert (Hwait : awaiting p = true -> forallb isSettled (promises p) = false).
  { revert Hexec.
    apply (exec_invariant limit handler
             (fun q => awaiting q = true -> forallb isSettled (promises q) = false)).
    - intros q e q'. apply awaiting_step.
    - discriminate. }
  destruct (forallb isSettled (promises p)) eqn:Hall.
  - exists Launch. cbn [step].
    destruct (awaiting p); [now specialize (Hwait eq_refl) |].
    unfold drained in Hd. rewrite Hall in Hd.
    destruct (queue p); [discriminate | eauto].
  - apply unsettled_promise in Hall as (k & t & [Hk | [r Hk]]).
    + exists (Finish k). cbn [step]. rewrite Hk.
      specialize (Hlive k t (shared p)).
      destruct (handler k t (shared p)) as [[r s']|]; [eauto | congruence].
    + exists (Settle k). cbn [step]. rewrite Hk. eauto.
Qed.

End PoolMore.

Lemma tasks_start_in_order_witness :
  exists p,
    exec 2 countingHandler [Launch; Launch; Finish 1; Settle 1; Launch]
         (start ["a"; "b"; "c"; "d"] 0) = Some p /\
    map fst (promises p) = ["a"; "b"; "c"] /\ queue p = ["d"] /\
    map fst (promises p) ++ queue p = ["a"; "b"; "c"; "d"].
Proof.
  eexists. split; [reflexivity |].
  split; [reflexivity |]. split; [reflexivity |].
  exact (proj1 (tasks_start_in_order 2 countingHandler ["a"; "b"; "c"; "d"] 0
                  [Launch; Launch; Finish 1; Settle 1; Launch] _ eq_refl)).
Defined.

Lemma pool_terminates_witness :
  exists p,
    exec 1 countingHandler [Launch; Finish 0; Settle 0; Launch; Finish 1]
         (start ["a"; "b"] 0) = Some p /\
    stepsLeft p = 1 /\ drained p = false /\
    5 + stepsLeft p = 3 * 2.
Proof.
  eexists. split; [reflexivity |].
  split; [reflexivity |]. split; [reflexivity |].
  exact (proj1 (pool_terminates 1 countingHandler ["a"; "b"] 0
                  [Launch; Finish 0; Settle 0; Launch; Finish 1] _ eq_refl)).
Defined.

Lemma pool_never_stuck_witness :
  exec (-1) countingHandler [Launch] (start ["a"; "b"] 0)
  = Some (mkPool ["b"] [("a", Working)] true 0) /\
  exists e p',
    step (-1) countingHandler (mkPool ["b"] [("a", Working)] true 0) e = Some p'.
Proof.
  split; [reflexivity |].
  apply (pool_never_stuck (-1) countingHandler ["a"; "b"] 0 [Launch]
           (mkPool ["b"] [("a", Working)] true 0));
    [discriminate | reflexivity | reflexivity].
Defined.

(** ** runWithConcurrency with any limit *)

Section AnyLimit.

Context {T R Sh : Type}.
Variable limit : Z.
Variable handler : nat -> T -> Sh -> option (R * Sh).

Lemma atLeastOne_step (p : Pool T R Sh) e p' :
  withinLimit (Z.max 1 limit) p -> step limit handler p e = Some p' ->
  withinLimit (Z.max 1 limit) p'.
Proof.
  intros [Hle Hlt]. destruct e as [|k|k]; cbn [step].
  - destruct (awaiting p) eqn:Ha; [discriminate |].
    destruct (queue p) as [|t rest]; [discriminate |].
    intros [= <-]. unfold withinLimit. cbn [promises awaiting].
    rewrite executingSize_snoc. specialize (Hlt eq_refl).
    split; [lia |]. intros Hw. apply Z.leb_gt in Hw. lia.
  - destruct (nth_error (promises p) k) as [[t [| |]]|] eqn:E; try discriminate.
    destruct (handler k t (shared p)) as [[r s']|]; [| discriminate].
    intros [= <-]. unfold withinLimit. cbn [promises awaiting].
    rewrite (executingSize_finish _ _ _ _ E). auto.
  - destruct (nth_error (promises p) k) as [[t [|r|]]|] eqn:E; try discriminate.
    intros [= <-]. unfold withinLimit. cbn [promises awaiting].
    pose proof (executingSize_settle _ _ _ _ E). lia.
Qed.

(** X12. Whatever number the limit is, [runWithConcurrency] keeps at
    most max(1, limit) handlers in flight: a limit of one, of zero or
    below zero runs the handlers one at a time. *)
Theorem in_flight_any_limit (tasks : list T) (s : Sh) (schedule : list Event)
  (p : Pool T R Sh) :
  exec limit handler schedule (start tasks s) = Some p ->
  (Z.of_nat (executingSize (promises p)) <= Z.max 1 limit)%Z /\
  ((limit <= 1)%Z -> executingSize (promises p) <= 1).
Proof.
  intros Hexec.
  assert (H : withinLimit (Z.max 1 limit) p).
  { revert Hexec. apply (exec_invariant limit handler (withinLimit (Z.max 1 limit))).
    - apply atLeastOne_step.
    - split; simpl; lia. }
  destruct H as [H _]. split; [exact H | lia].
Qed.

End AnyLimit.

Lemma in_flight_any_limit_witness :
  exists p,
    exec (-3) countingHandler [Launch; Finish 0; Settle 0; Launch]
         (start ["a"; "b"; "c"] 0) = Some p /\
    executingSize (promises p) = 1 /\
    (Z.of_nat (executingSize (promises p)) <= Z.max 1 (-3))%Z.
Proof.
  eexists. split; [reflexivity |]. split; [reflexivity |].
  exact (proj1 (in_flight_any_limit (-3) countingHandler ["a"; "b"; "c"] 0
                  [Launch; Finish 0; Settle 0; Launch] _ eq_refl)).
Defined.

(** ** A run that is killed and resumed *)















(** ** A run from scratch *)




(** ** The summary *)

Lemma tallyOf_count s s' tally :
  tallyOf s (count s' tally)
  = tallyOf s tally + (if String.eqb s s' then 1 else 0).
Proof.
  induction tally as [|[k n] tally IH]; simpl.
  - destruct (String.eqb s s'); reflexivity.
  - destruct (String.eqb s' k) eqn:E1; simpl.
    + apply String.eqb_eq in E1 as ->.
      destruct (String.eqb s k); lia.
    + destruct (String.eqb s k) eqn:E2; [| exact IH].
      apply String.eqb_eq in E2 as ->. rewrite String.eqb_sym, E1. lia.
Qed.

Lemma count_keys s tally x :
  In x (map fst (count s tally)) <-> x = s \/ In x (map fst tally).
Proof.
  induction tally as [|[k n] tally IH]; simpl; [intuition |].
  destruct (String.eqb s k) eqn:E; simpl.
  - apply String.eqb_eq in E as ->. intuition.
  - rewrite IH. intuition.
Qed.

Lemma count_NoDup s tally :
  NoDup (map fst tally) -> NoDup (map fst (count s tally)).
Proof.
  induction tally as [|[k n] tally IH]; simpl; intros Hnd.
  - repeat constructor. intros [].
  - inversion Hnd as [|? ? Hout Hnd']; subst.
    destruct (String.eqb s k) eqn:E; simpl.
    + now constructor.
    + constructor; [| now apply IH]. rewrite count_keys.
      intros [-> | H]; [| contradiction]. now rewrite String.eqb_refl in E.
Qed.

Lemma count_sum s tally :
  list_sum (map snd (count s tally)) = S (list_sum (map snd tally)).
Proof.
  induction tally as [|[k n] tally IH]; simpl; [reflexivity |].
  destruct (String.eqb s k); simpl; [reflexivity | rewrite IH; lia].
Qed.

Lemma count_positive s tally :
  Forall (fun e => 1 <= snd e) tally -> Forall (fun e => 1 <= snd e) (count s tally).
Proof.
  induction 1 as [|[k n] tally Hn Hrest IH]; simpl.
  - repeat constructor.
  - destruct (String.eqb s k); constructor; simpl in *; auto; lia.
Qed.

Lemma tally_fold (ss : list string) tally :
  NoDup (map fst tally) -> Forall (fun e => 1 <= snd e) tally ->
  let final := fold_left (fun tally s => count s tally) ss tally in
  NoDup (map fst final) /\ Forall (fun e => 1 <= snd e) final /\
  list_sum (map snd final) = list_sum (map snd tally) + List.length ss /\
  forall s, tallyOf s final
            = tallyOf s tally + List.length (filter (String.eqb s) ss).
Proof.
  revert tally. induction ss as [|s0 ss IH]; intros tally Hnd Hpos; simpl.
  - repeat split; auto.
  - destruct (IH (count s0 tally) (count_NoDup _ _ Hnd) (count_positive _ _ Hpos))
      as (H1 & H2 & H3 & H4).
    split; [exact H1 |]. split; [exact H2 |]. split.
    + rewrite H3, count_sum. lia.
    + intros s. rewrite H4, tallyOf_count.
      destruct (String.eqb s s0); simpl; lia.
Qed.

Lemma statuses_plain rs :
  forallb plainStatus rs = true ->
  exists ss, statuses rs = Some ss /\ List.length ss = List.length rs /\
             forall s, List.length (filter (String.eqb s) ss)
                       = List.length (filter (hasStatus s) rs).
Proof.
  induction rs as [|r rs IH]; simpl.
  - exists []. auto.
  - intros H. apply andb_true_iff in H as [Hr H].
    destruct (IH H) as (ss & -> & Hlen & Hcount).
    unfold plainStatus in Hr. unfold hasStatus at 1.
    destruct (statusOf r) as [s0|]; [| discriminate].
    exists (s0 :: ss). split; [reflexivity |]. split; [simpl; congruence |].
    intros s. simpl. destruct (String.eqb s s0); simpl; now rewrite Hcount.
Qed.

(** X16. The summary adds up: [processed] is the number of records,
    [failedList] the records whose status contains 'error' and [failed]
    their number, [byStatus] has every status once with the number of
    records that carry it, and its counts add up to [processed]. Stated
    for statuses that are no name inherited from [Object.prototype]. *)
Theorem summary_adds_up (w : World) (allResults : list JsObject) :
  forallb plainStatus allResults = true ->
  exists data,
    summarize w allResults = Ok data /\
    processed data = List.length allResults /\
    failedList data = filter isError allResults /\
    failed data = List.length (failedList data) /\
    failed data <= processed data /\
    NoDup (map fst (byStatus data)) /\
    (forall s, tallyOf s (byStatus data)
               = List.length (filter (hasStatus s) allResults)) /\
    (forall s n, In (s, n) (byStatus data) -> 1 <= n) /\
    list_sum (map snd (byStatus data)) = processed data.
Proof.
  intros Hplain.
  destruct (statuses_plain allResults Hplain) as (ss & Hss & Hlen & Hcount).
  unfold summarize. rewrite Hss. eexists. split; [reflexivity |].
  cbn [processed failedList failed byStatus].
  destruct (tally_fold ss [] (NoDup_nil _) (Forall_nil _)) as (H1 & H2 & H3 & H4).
  split; [reflexivity |]. split; [reflexivity |]. split; [reflexivity |].
  split; [apply filter_length_le |]. split; [exact H1 |]. split.
  - intros s. rewrite H4, Hcount. reflexivity.
  - split.
    + intros s n Hin. rewrite Forall_forall in H2. exact (H2 _ Hin).
    + rewrite H3, Hlen. reflexivity.
Qed.

Lemma summary_adds_up_witness :
  let w := worldOf (fun _ => answers) true in
  let rs := [recordOf "A"; errorResult itemB "boom"; recordOf "C";
             [("id", JStr "D"); ("status", JStr "llm_error")]] in
  exists data,
    summarize w rs = Ok data /\
    byStatus data = [("processed", 2); ("error", 1); ("llm_error", 1)] /\
    failed data = 2 /\
    list_sum (map snd (byStatus data)) = processed data.
Proof.
  intros w rs.
  destruct (summary_adds_up w rs eq_refl) as (data & Hsum & H).
  exists data. split; [exact Hsum |].
  assert (Hdata : Ok data = summarize w rs) by (symmetry; exact Hsum).
  vm_compute in Hdata. injection Hdata as ->.
  split; [reflexivity |]. split; [reflexivity |]. reflexivity.
Defined.

End RunnerMore.

(* ===================================================================== *)
(** * Properties of shared.js                                            *)
(* ===================================================================== *)

Module SharedFacts.
Import Runner Shared Notions.

(** ** split and join *)

Lemma split_nonempty s : split s <> [].
Proof.
  destruct s as [|c s]; simpl; [discriminate |].
  destruct (Ascii.eqb c newline); [discriminate |].
  destruct (split s); discriminate.
Qed.

Lemma split_oneLine s : oneLine s = true -> split s = [s].
Proof.
  unfold oneLine. induction s as [|c s IH]; simpl; [reflexivity |].
  intros H. apply andb_true_iff in H as [Hc H].
  apply negb_true_iff in Hc. rewrite Hc, (IH H). reflexivity.
Qed.

Lemma split_lines s : Forall (fun line => oneLine line = true) (split s).
Proof.
  induction s as [|c s IH]; simpl; [repeat constructor |].
  destruct (Ascii.eqb c newline) eqn:E; [constructor; [reflexivity | exact IH] |].
  destruct (split s) as [|line lines].
  { constructor; [| constructor]. unfold oneLine. simpl. now rewrite E. }
  inversion IH as [|? ? Hline Hlines]; subst.
  constructor; [| exact Hlines]. unfold oneLine in *. simpl. now rewrite E.
Qed.

Lemma split_app a b :
  split (String.append a (String newline b)) = split a ++ split b.
Proof.
  induction a as [|c a IH]; simpl.
  - reflexivity.
  - destruct (Ascii.eqb c newline); [now rewrite IH |].
    rewrite IH. pose proof (split_nonempty a) as Hne.
    destruct (split a); [congruence | reflexivity].
Qed.

Lemma split_join lines :
  lines <> [] -> Forall (fun line => oneLine line = true) lines ->
  split (join lines) = lines.
Proof.
  induction lines as [|line rest IH]; [congruence |].
  intros _ H. inversion H as [|? ? Hline Hrest]; subst.
  destruct rest as [|line' rest].
  - simpl. now apply split_oneLine.
  - change (join (line :: line' :: rest))
      with (String.append line (String newline (join (line' :: rest)))).
    rewrite split_app, (split_oneLine _ Hline), IH; [reflexivity | discriminate | exact Hrest].
Qed.

Lemma join_split s : join (split s) = s.
Proof.
  induction s as [|c s IH]; simpl; [reflexivity |].
  pose proof (split_nonempty s) as Hne.
  destruct (Ascii.eqb c newline) eqn:E.
  - apply Ascii.eqb_eq in E as ->.
    destruct (split s) as [|line lines]; [congruence |].
    change (join (EmptyString :: line :: lines))
      with (String newline (join (line :: lines))).
    now rewrite IH.
  - destruct (split s) as [|line lines]; [congruence |].
    destruct lines as [|line' lines]; simpl in *; now rewrite IH.
Qed.

Lemma uint_oneLine d : oneLine (NilEmpty.string_of_uint d) = true.
Proof. unfold oneLine. induction d; simpl; auto. Qed.

Lemma showNumber_oneLine z : oneLine (showNumber z) = true.
Proof.
  unfold showNumber, NilZero.string_of_int, NilZero.string_of_uint.
  destruct (Z.to_int z) as [d | d]; destruct d; try reflexivity;
    try apply (uint_oneLine (_ d));
    unfold oneLine; simpl; apply (uint_oneLine d).
Qed.

Lemma oneLine_app a b : oneLine (String.append a b) = oneLine a && oneLine b.
Proof.
  unfold oneLine. induction a as [|c a IH]; simpl; [reflexivity |].
  now rewrite IH, andb_assoc.
Qed.

Lemma slice_firstn {A} (n : Z) (l : list A) :
  (0 <= n <= Z.of_nat (List.length l))%Z ->
  slice 0 n l = firstn (Z.to_nat n) l.
Proof.
  intros H. unfold slice, relative. simpl.
  destruct (n <? 0)%Z eqn:E; [apply Z.ltb_lt in E; lia |].
  rewrite Z.min_l by lia.
  replace (Z.min 0 (Z.of_nat (List.length l))) with 0%Z by lia.
  simpl. now rewrite Z.sub_0_r.
Qed.


(** ** readFileSafe *)

(** X17. [readFileSafe] with a limit of at least one line returns the
    content as it is when it has no more lines than the limit, and
    otherwise its first [maxLines] lines followed by one line that tells
    how many were left out; with a limit of zero the note comes after an
    empty line. The text returned never has more than max(maxLines, 1) + 1
    lines. *)
Theorem readFileSafe_line_limit (content : string) (maxLines : Z) :
  (0 <= maxLines)%Z ->
  let lines := split content in
  let note := String.append "... ("
                (String.append (showNumber (Z.of_nat (List.length lines) - maxLines))
                               " more lines)") in
  exists text,
    readFileSafe (Some content) (Some maxLines) = Some text /\
    (Z.of_nat (List.length (split text)) <= Z.max maxLines 1 + 1)%Z /\
    ((Z.of_nat (List.length lines) <= maxLines)%Z -> text = content) /\
    ((1 <= maxLines < Z.of_nat (List.length lines))%Z ->
     split text = firstn (Z.to_nat maxLines) lines ++ [note]) /\
    (maxLines = 0%Z -> split text = [EmptyString; note]).
Proof.
  intros Hmax lines note.
  assert (Hnote : oneLine note = true).
  { unfold note. rewrite !oneLine_app, showNumber_oneLine. reflexivity. }
  assert (Hlen : 1 <= List.length lines).
  { pose proof (split_nonempty content). unfold lines.
    destruct (split content); [congruence | simpl; lia]. }
  unfold readFileSafe. fold lines.
  destruct (maxLines <? Z.of_nat (List.length lines))%Z eqn:E.
  - apply Z.ltb_lt in E. rewrite slice_firstn by lia.
    change (String.append (String newline "... (")
              (String.append (showNumber (Z.of_nat (List.length lines) - maxLines))
                             " more lines)"))
      with (String newline note).
    eexists. split; [reflexivity |]. rewrite split_app, (split_oneLine _ Hnote).
    destruct (Z.eq_dec maxLines 0) as [-> | Hpos].
    + simpl. split; [lia |]. split; [lia |]. split; [lia | reflexivity].
    + assert (Hfirst : split (join (firstn (Z.to_nat maxLines) lines))
                       = firstn (Z.to_nat maxLines) lines).
      { apply split_join.
        - destruct lines; [simpl in Hlen; lia |].
          destruct (Z.to_nat maxLines) eqn:En; [lia | discriminate].
        - apply Forall_forall. intros line Hin.
          pose proof (split_lines content) as Hall. rewrite Forall_forall in Hall.
          apply Hall. rewrite <- (firstn_skipn (Z.to_nat maxLines) (split content)).
          apply in_or_app. now left. }
      rewrite Hfirst. split.
      * rewrite length_app, length_firstn. simpl. lia.
      * split; [lia |]. split; [reflexivity | lia].
  - apply Z.ltb_ge in E. eexists. split; [reflexivity |]. fold lines.
    split; [lia |]. split; [reflexivity |]. split; lia.
Qed.

Lemma readFileSafe_line_limit_witness :
  exists text,
    readFileSafe (Some (String.append "a" (String newline
                          (String.append "b" (String newline "c")))))
                 (Some 2%Z) = Some text /\
    split text = ["a"; "b"; "... (1 more lines)"].
Proof.
  destruct (readFileSafe_line_limit
              (String.append "a" (String newline
                 (String.append "b" (String newline "c")))) 2%Z)
    as (text & Hread & _ & _ & Hcut & _); [lia |].
  exists text. split; [exact Hread |].
  rewrite Hcut by (vm_compute; split; [discriminate | reflexivity]).
  reflexivity.
Defined.

(** ** archiveToHistory *)

Lemma objGet_objSet k v o : objGet k (objSet k v o) = Some v.
Proof.
  induction o as [|[k' v'] o IH]; simpl.
  - now rewrite String.eqb_refl.
  - destruct (String.eqb k k') eqn:E; simpl; [now rewrite String.eqb_refl |].
    now rewrite E.
Qed.

Lemma sliceFrom_skipn {A} (first : Z) (l : list A) :
  sliceFrom first l
  = skipn (Z.to_nat (relative (Z.of_nat (List.length l)) first)) l.
Proof.
  unfold sliceFrom, slice.
  set (len := Z.of_nat (List.length l)).
  set (k := relative len first).
  assert (Hk : (0 <= k <= len)%Z).
  { unfold k, relative. destruct (first <? 0)%Z eqn:E; [lia |].
    apply Z.ltb_ge in E. lia. }
  assert (relative len len = len) as ->.
  { unfold relative. destruct (len <? 0)%Z eqn:E; [apply Z.ltb_lt in E |]; lia. }
  apply firstn_all2. rewrite length_skipn. lia.
Qed.

(** X18. [archiveToHistory] appends the result, stamped with
    [archivedAt], and with a limit of at least one keeps the newest
    [maxEntries] entries, the new one last. A limit of zero keeps every
    entry, and a negative limit -n drops the n oldest. What is kept is
    always the end of the history. When the call returns false the file is
    as it was. *)
Theorem archiveToHistory_keeps_newest (writable : bool) (now : string)
  (file : File HistoryJson) (result : JsObject) (maxEntries : option Z) :
  let limit := match maxEntries with Some n => n | None => 10%Z end in
  let entry := spread result [("archivedAt", JStr now)] in
  (snd (archiveToHistory writable now file result maxEntries) = false ->
   fst (archiveToHistory writable now file result maxEntries) = file) /\
  (writable = true ->
   forall history, readJsonSafe file (Entries []) = Entries history ->
   exists kept,
     archiveToHistory writable now file result maxEntries
     = (Json (Entries kept), true) /\
     objGet "archivedAt" entry = Some (JStr now) /\
     (exists dropped, history ++ [entry] = dropped ++ kept) /\
     ((1 <= limit)%Z ->
      List.length kept = Nat.min (S (List.length history)) (Z.to_nat limit) /\
      exists before, kept = before ++ [entry]) /\
     (limit = 0%Z -> kept = history ++ [entry]) /\
     ((limit < 0)%Z -> kept = skipn (Z.to_nat (- limit)) (history ++ [entry]))).
Proof.
  intros limit entry. unfold archiveToHistory. fold limit. split.
  - destruct (readJsonSafe file (Entries [])); [| reflexivity].
    unfold writeJsonSafe. destruct writable; [discriminate | reflexivity].
  - intros -> history ->. fold entry. unfold writeJsonSafe.
    set (l := history ++ [entry]).
    assert (Hl : List.length l = S (List.length history))
      by (unfold l; rewrite length_app; simpl; lia).
    assert (Hstamp : objGet "archivedAt" entry = Some (JStr now))
      by (unfold entry, spread; simpl; apply objGet_objSet).
    destruct (limit <? Z.of_nat (List.length l))%Z eqn:E.
    + apply Z.ltb_lt in E. rewrite sliceFrom_skipn.
      set (k := Z.to_nat (relative (Z.of_nat (List.length l)) (- limit))).
      exists (skipn k l). split; [reflexivity |]. split; [exact Hstamp |].
      split; [exists (firstn k l); now rewrite firstn_skipn |].
      split; [| split].
      * intros Hpos.
        assert (Hk : k = List.length l - Z.to_nat limit).
        { unfold k, relative. destruct (- limit <? 0)%Z eqn:E'; [| apply Z.ltb_ge in E']; lia. }
        split; [rewrite length_skipn; lia |].
        exists (skipn k history). unfold l.
        rewrite skipn_app. replace (k - List.length history) with 0 by lia.
        reflexivity.
      * intros H0. unfold k. rewrite H0. unfold relative. simpl.
        replace (Z.to_nat (Z.min 0 (Z.of_nat (List.length l)))) with 0 by lia.
        reflexivity.
      * intros Hneg. unfold k, relative.
        destruct (- limit <? 0)%Z eqn:E'; [apply Z.ltb_lt in E'; lia |].
        destruct (Z.min_spec (- limit) (Z.of_nat (List.length l))) as [[_ ->] | [Hge ->]];
          [reflexivity |].
        rewrite Nat2Z.id, !skipn_all2 by lia. reflexivity.
    + apply Z.ltb_ge in E. exists l. split; [reflexivity |]. split; [exact Hstamp |].
      split; [now exists [] |]. split; [| split]; try lia.
      intros _. split; [lia |]. now exists history.
Qed.

Lemma archiveToHistory_keeps_newest_witness :
  let old := [[("run", JNum 1)]; [("run", JNum 2)]; [("run", JNum 3)]] in
  archiveToHistory true "2026-01-01T00:00:00.000Z" (Json (Entries old))
                   [("run", JNum 4)] (Some 2%Z)
  = (Json (Entries [[("run", JNum 3)];
                    [("run", JNum 4); ("archivedAt", JStr "2026-01-01T00:00:00.000Z")]]),
     true) /\
  exists kept before,
    archiveToHistory true "2026-01-01T00:00:00.000Z" (Json (Entries old))
                     [("run", JNum 4)] (Some 2%Z)
    = (Json (Entries kept), true) /\
    List.length kept = 2 /\
    kept = before ++ [[("run", JNum 4);
                       ("archivedAt", JStr "2026-01-01T00:00:00.000Z")]].
Proof.
  intros old. split; [reflexivity |].
  destruct (proj2 (archiveToHistory_keeps_newest true "2026-01-01T00:00:00.000Z"
                     (Json (Entries old)) [("run", JNum 4)] (Some 2%Z))
              eq_refl old eq_refl)
    as (kept & Hkept & _ & _ & Hlimit & _).
  destruct (Hlimit ltac:(lia)) as (Hlen & before & Hlast).
  exists kept, before. split; [exact Hkept |]. split; [exact Hlen | exact Hlast].
Defined.

End SharedFacts.
